(** * Long-form synthesis pipeline: chunker, dispatcher, reassembler

    A shallow embedding of [example_tts_long_input.py] and
    [example_tts_long_input_compressed.py], with the properties of the
    chunker, the retry loop, the index-addressed dispatcher and the splice
    report proved over it.

    Python values are modelled as follows.
    - [str] is a list of Unicode code points ([N]).
    - [int] is [Z]; [-1] sentinels of [str.find]/[str.rfind] are kept.
    - [bytes] is a list of [Byte.byte].
    - a [while] loop is a fixpoint on a fuel counter that answers [None]
      when the fuel runs out; the termination theorems show that the fuel
      handed out by the caller is always enough.
    - [float] is the binary64 of [PrimFloat].
    - an exception is the [Raise] case of [result]; printing is left out. *)

From Stdlib Require Import ZArith NArith List Lia Bool String Ascii.
From Stdlib Require Import Floats Uint63.
From Stdlib Require Strings.Byte.
From stdpp Require Import base tactics option list.

Local Open Scope Z_scope.

(** ** Python strings *)

Abbreviation char := N.
Abbreviation str := (list N).

Definition len {A} (s : list A) : Z := Z.of_nat (length s).

(** Code points of an ASCII literal. *)
Definition of_string (s : string) : str :=
  map N_of_ascii (list_ascii_of_string s).

(** [str.isspace] on one code point, which is also what [\s] matches in a
    [str] pattern and what [str.strip()] removes: CPython's
    [_PyUnicode_IsWhitespace] table. *)
Definition isspace (c : char) : bool :=
  ((9 <=? c) && (c <=? 13) || (28 <=? c) && (c <=? 32)
   || (c =? 133) || (c =? 160) || (c =? 5760)
   || (8192 <=? c) && (c <=? 8202)
   || (c =? 8232) || (c =? 8233) || (c =? 8239) || (c =? 8287)
   || (c =? 12288))%N.

(** A slice bound [i] of a sequence of length [n], clamped as Python does:
    a negative bound counts from the end. *)
Definition slice_bound (n : nat) (i : Z) : nat :=
  if i <? 0 then Z.to_nat (Z.max 0 (Z.of_nat n + i))
  else Z.to_nat (Z.min i (Z.of_nat n)).

(** [s[i:]] *)
Definition slice_from {A} (s : list A) (i : Z) : list A :=
  drop (slice_bound (length s) i) s.

(** [s[:j]] *)
Definition slice_to {A} (s : list A) (j : Z) : list A :=
  take (slice_bound (length s) j) s.

Fixpoint lstrip (s : str) : str :=
  match s with
  | c :: s' => if isspace c then lstrip s' else s
  | [] => []
  end.

Definition rstrip (s : str) : str := rev (lstrip (rev s)).

(** [s.strip()] *)
Definition strip (s : str) : str := rstrip (lstrip s).

(** Truth value of a string: non-empty. *)
Definition truthy {A} (s : list A) : bool :=
  match s with [] => false | _ => true end.

Fixpoint startswith (sub s : str) : bool :=
  match sub, s with
  | [], _ => true
  | a :: sub', b :: s' => (a =? b)%N && startswith sub' s'
  | _ :: _, [] => false
  end.

(** Lowest index at or after [i] (the absolute index of the head of [s])
    where [sub] occurs, or [-1]. *)
Fixpoint find_from (sub s : str) (i : Z) : Z :=
  if startswith sub s then i
  else match s with
       | [] => -1
       | _ :: s' => find_from sub s' (i + 1)
       end.

(** [s.find(sub, start)] *)
Definition find (sub s : str) (start : Z) : Z :=
  let k := slice_bound (length s) start in
  find_from sub (drop k s) (Z.of_nat k).

(** Highest index where [sub] occurs, or [-1]. *)
Fixpoint rfind_from (sub s : str) (i : Z) : Z :=
  match s with
  | [] => if startswith sub [] then i else -1
  | _ :: s' =>
      let r := rfind_from sub s' (i + 1) in
      if r =? -1 then (if startswith sub s then i else -1) else r
  end.

(** [s.rfind(sub)] *)
Definition rfind (sub s : str) : Z := rfind_from sub s 0.

(** ** The fragment of [re] used by the sentence pattern

    A backtracking matcher in continuation-passing style: alternatives are
    tried left to right, [?] and [+] are greedy, and [$] holds at the end
    of the subject or just before a final newline. *)

Inductive regex : Type :=
| Cls (p : char -> bool)
| Opt (r : regex)
| Plus (p : char -> bool)
| Eos
| Seq (r1 r2 : regex)
| Alt (r1 r2 : regex).

Definition at_eos (s : str) : bool :=
  match s with
  | [] => true
  | [c] => (c =? 10)%N
  | _ => false
  end.

Fixpoint match_plus (p : char -> bool) (s : str)
    (k : str -> option str) : option str :=
  match s with
  | c :: s' =>
      if p c then
        match match_plus p s' k with
        | Some r => Some r
        | None => k s'
        end
      else None
  | [] => None
  end.

Fixpoint match_re (r : regex) (s : str) (k : str -> option str)
    : option str :=
  match r with
  | Cls p =>
      match s with
      | c :: s' => if p c then k s' else None
      | [] => None
      end
  | Opt r1 =>
      match match_re r1 s k with
      | Some x => Some x
      | None => k s
      end
  | Plus p => match_plus p s k
  | Eos => if at_eos s then k s else None
  | Seq r1 r2 => match_re r1 s (fun s' => match_re r2 s' k)
  | Alt r1 r2 =>
      match match_re r1 s k with
      | Some x => Some x
      | None => match_re r2 s k
      end
  end.

(** A match anchored at the head of [s]: the unmatched rest of [s]. *)
Definition match_here (r : regex) (s : str) : option str :=
  match_re r s Some.

(** A match object, reduced to [m.start()] and [m.end()]. *)
Record Match := mkMatch { m_start : Z; m_end : Z }.

(** Left-to-right scan for non-overlapping matches.  [pos] is the index of
    the head of [s]; [skip] counts characters still covered by the previous
    match. *)
Fixpoint finditer_from (r : regex) (pos : Z) (skip : nat) (s : str)
    : list Match :=
  match skip, s with
  | S k, _ :: s' => finditer_from r (pos + 1) k s'
  | S _, [] => []
  | O, _ =>
      match match_here r s with
      | Some rest =>
          let n := (length s - length rest)%nat in
          mkMatch pos (pos + Z.of_nat n) ::
            match s with
            | [] => []
            | _ :: s' => finditer_from r (pos + 1) (n - 1) s'
            end
      | None =>
          match s with
          | [] => []
          | _ :: s' => finditer_from r (pos + 1) 0 s'
          end
      end
  end.

(** [list(pattern.finditer(s))] *)
Definition finditer (r : regex) (s : str) : list Match :=
  finditer_from r 0 0 s.

Definition is_terminator (c : char) : bool :=
  ((c =? 46) || (c =? 33) || (c =? 63))%N.

Definition is_quote (c : char) : bool :=
  ((c =? 34) || (c =? 39))%N.

(** [[.!?]["']?\s+|[.!?]["']?$] *)
Definition sentence_end_pattern : regex :=
  Alt (Seq (Cls is_terminator) (Seq (Opt (Cls is_quote)) (Plus isspace)))
      (Seq (Cls is_terminator) (Seq (Opt (Cls is_quote)) Eos)).

(** ** Data classes *)

Record TextChunk := mkTextChunk {
  text : str;
  start_char : Z;
  end_char : Z
}.

Record SynthesisConfig := mkSynthesisConfig {
  voice_id : string;
  model_id : string;
  api_key : string;
  audio_encoding : string
}.

(** ** Bytes, numbers and exceptions *)

Abbreviation bytes := (list Byte.byte).

#[global] Instance byte_eq_dec : EqDecision Byte.byte := Byte.byte_eq_dec.

(** An [int] as a [float].  Exact below [2^53], which covers every buffer
    length and every constant of the scripts. *)
Definition Z_to_float (z : Z) : float :=
  if z <? 0 then PrimFloat.opp (PrimFloat.of_uint63 (Uint63.of_Z (- z)))
  else PrimFloat.of_uint63 (Uint63.of_Z z).

(** The exceptions of [requests] that the scripts can meet.  Only an
    [HTTPError], raised by [raise_for_status], carries a response. *)
Inductive request_exception :=
| HTTPError (status_code : Z)
| Timeout
| ConnectionError.

(** [e.response.status_code], when [e.response] is there. *)
Definition response_status (e : request_exception) : option Z :=
  match e with
  | HTTPError status_code => Some status_code
  | Timeout | ConnectionError => None
  end.

Inductive exception :=
| RequestException (e : request_exception)
| KeyError
| RuntimeError
| IndexError
| TypeError
| ValueError
| ZeroDivisionError.

(** A computation that returns or raises. *)
Inductive result (A : Type) :=
| Ok (a : A)
| Raise (e : exception).
Arguments Ok {A} a.
Arguments Raise {A} e.

#[global] Instance result_bind : MBind result := fun A B k r =>
  match r with
  | Ok a => k a
  | Raise e => Raise e
  end.

(** [a / b] on integers. *)
Definition true_divide (a b : Z) : result float :=
  if b =? 0 then Raise ZeroDivisionError
  else Ok (PrimFloat.div (Z_to_float a) (Z_to_float b)).

(** [enumerate(l)], counting from [n]. *)
Fixpoint enumerate_from {A} (n : nat) (l : list A) : list (nat * A) :=
  match l with
  | [] => []
  | x :: l' => (n, x) :: enumerate_from (S n) l'
  end.

Definition enumerate {A} (l : list A) : list (nat * A) := enumerate_from 0 l.

(** [l[index]] for an index that is not negative. *)
Definition getitem {A} (l : list A) (index : nat) : result A :=
  match l !! index with
  | Some x => Ok x
  | None => Raise IndexError
  end.

(** [l[index] = v] for an index that is not negative. *)
Definition setitem {A} (l : list A) (index : nat) (v : A) : result (list A) :=
  if (index <? length l)%nat then Ok (<[index := v]> l) else Raise IndexError.

(** ** The remote service and the clock

    One call of [requests.post] followed by [raise_for_status] and the
    decoding of the body either yields the audio, raises a
    [RequestException], or meets a body without [audioContent].  What the
    service answers to the [n]-th request of one synthesis call depends on
    the text that the request carries, and is given by an oracle
    [str -> nat -> response]; the requests sent and the pauses taken are
    recorded in a trace. *)

Inductive response :=
| Audio (audio_data : bytes)
| Failed (e : request_exception)
| Malformed.

Inductive event :=
| Post (text : str)
| Sleep (delay : float).

Record world := mkWorld {
  requests_sent : nat;
  trace : list event
}.

Definition new_world : world := mkWorld 0 [].

Definition post (server : str -> nat -> response) (text : str) (w : world)
    : response * world :=
  (server text (requests_sent w),
   mkWorld (S (requests_sent w)) (trace w ++ [Post text])).

Definition sleep (delay : float) (w : world) : world :=
  mkWorld (requests_sent w) (trace w ++ [Sleep delay]).

(** [ThreadPoolExecutor(max_workers=n)]: the constructor raises
    [ValueError] when [n <= 0]. *)
Definition ThreadPoolExecutor (max_workers : Z) : result unit :=
  if max_workers <=? 0 then Raise ValueError else Ok ().

(** The value a finished future holds: what [synthesize_chunk_wrapper]
    returned or raised. *)
Abbreviation future := (result (nat * list Byte.byte)).

(** The loop [for future in as_completed(futures): index, audio_data =
    future.result(); audio_buffers[index] = audio_data], over the futures
    in the order in which they complete. *)
Fixpoint collect (completed : list future)
    (audio_buffers : list (option bytes)) : result (list (option bytes)) :=
  match completed with
  | [] => Ok audio_buffers
  | future :: rest =>
      '(index, audio_data) ← future;
      audio_buffers' ← setitem audio_buffers index (Some audio_data);
      collect rest audio_buffers'
  end.

(** ** [example_tts_long_input.py]: sentence-first chunking *)

Module LongInput.

Definition MIN_CHUNK_SIZE : Z := 1000.
Definition MAX_CHUNK_SIZE : Z := 1900.

(** Lines 93-108 of [chunk_text]: the cut offset [chunk_end] chosen inside
    the window [search_text]. *)
Definition sentence_cut (search_text : str) : Z :=
  let matches := finditer sentence_end_pattern search_text in
  let valid_matches := filter (fun m => MIN_CHUNK_SIZE <= m_end m) matches in
  match valid_matches with
  | m :: _ => m_end m
  | [] =>
      match last matches with
      | Some m => m_end m
      | None =>
          let space_index := rfind (of_string " ") search_text in
          if 0 <? space_index then space_index + 1 else MAX_CHUNK_SIZE
      end
  end.

(** The [while current_position < len(text)] loop of [chunk_text]. *)
Fixpoint chunk_loop (fuel : nat) (text : str) (current_position : Z)
    (chunks : list TextChunk) : option (list TextChunk) :=
  match fuel with
  | O => None
  | S fuel' =>
      if current_position <? len text then
        let remaining_text := slice_from text current_position in
        if len remaining_text <=? MAX_CHUNK_SIZE then
          let chunk_text := strip remaining_text in
          Some (if truthy chunk_text
                then chunks ++ [mkTextChunk chunk_text current_position (len text)]
                else chunks)
        else
          let search_text := slice_to remaining_text MAX_CHUNK_SIZE in
          let chunk_end := sentence_cut search_text in
          let chunk_text := strip (slice_to remaining_text chunk_end) in
          let chunks' :=
            if truthy chunk_text
            then chunks ++ [mkTextChunk chunk_text current_position
                              (current_position + chunk_end)]
            else chunks in
          chunk_loop fuel' text (current_position + chunk_end) chunks'
      else Some chunks
  end.

Definition chunk_text (text : str) : option (list TextChunk) :=
  chunk_loop (S (length text)) text 0 [].

Definition SAMPLE_RATE : Z := 48000.
Definition BITS_PER_SAMPLE : Z := 16.
Definition CHANNELS : Z := 1.

Record SplicePoint := mkSplicePoint {
  splice_index : nat;
  timestamp : float;
  formatted_time : string;
  chunk_start_char : Z;
  chunk_end_char : Z;
  text_preview : str
}.

(** One request, no retry: the audio, or the exception re-raised.  The
    voice, the model and the key only fill the request, and the chunk
    index and count only the log lines; the model leaves them out. *)
Definition synthesize_speech (server : str -> nat -> response) (text : str)
    (w : world) : result bytes * world :=
  let '(r, w1) := post server text w in
  match r with
  | Audio audio_data => (Ok audio_data, w1)
  | Failed e => (Raise (RequestException e), w1)
  | Malformed => (Raise KeyError, w1)
  end.

Definition synthesize_chunk_wrapper (service : nat -> str -> nat -> response)
    (args : TextChunk * nat * nat) : future :=
  let '(chunk, index, total) := args in
  audio_data ← fst (synthesize_speech (service index) (text chunk) new_world);
  Ok (index, audio_data).

(** Lines 329-344 of [main]: one worker per chunk, results stored by
    index.  The executor is created with [max_workers=len(chunks)], which
    raises [ValueError] when there is no chunk.  [as_completed] is the
    order in which the futures complete. *)
Definition synthesize_in_parallel (service : nat -> str -> nat -> response)
    (as_completed : list future -> list future)
    (chunks : list TextChunk) : result (list (option bytes)) :=
  let synthesis_args :=
    map (fun '(i, chunk) => (chunk, i, length chunks)) (enumerate chunks) in
  let audio_buffers := replicate (length chunks) None in
  executor ← ThreadPoolExecutor (len chunks);
  let futures := map (synthesize_chunk_wrapper service) synthesis_args in
  collect (as_completed futures) audio_buffers.

Definition RIFF : bytes := [Byte.x52; Byte.x49; Byte.x46; Byte.x46].

Definition extract_raw_audio (audio_data : bytes) : bytes :=
  if (44 <? len audio_data) && bool_decide (slice_to audio_data 4 = RIFF)
  then slice_from audio_data 44
  else audio_data.

Definition bytes_per_second : Z :=
  SAMPLE_RATE * (BITS_PER_SAMPLE / 8) * CHANNELS.

Definition calculate_duration (raw_audio : bytes) : result float :=
  true_divide (len raw_audio) bytes_per_second.

Section Reassembly.
(** [format_time]: the rendering of a float as [MM:SS.mmm] is left to
    the caller of the model. *)
Variable format_time : float -> string.

(** The [for index, buffer in enumerate(audio_buffers)] loop. *)
Fixpoint combine_loop (items : list (nat * bytes)) (chunks : list TextChunk)
    (splice_points : list SplicePoint) (current_time : float)
    (raw_buffers : list bytes)
    : result (list SplicePoint * float * list bytes) :=
  match items with
  | [] => Ok (splice_points, current_time, raw_buffers)
  | (index, buffer) :: rest =>
      let raw_audio := extract_raw_audio buffer in
      duration ← calculate_duration raw_audio;
      splice_points' ←
        (if (0 <? index)%nat then
           chunk ← getitem chunks index;
           Ok (splice_points ++
                 [mkSplicePoint index current_time (format_time current_time)
                    (start_char chunk) (end_char chunk)
                    (slice_to (text chunk) 50 ++ of_string "...")])
         else Ok splice_points);
      combine_loop rest chunks splice_points'
        (current_time + duration)%float (raw_buffers ++ [raw_audio])
  end.

Definition combine_audio_buffers (audio_buffers : list bytes)
    (chunks : list TextChunk) : result (bytes * list SplicePoint * float) :=
  '(splice_points, current_time, raw_buffers) ←
    combine_loop (enumerate audio_buffers) chunks [] 0%float [];
  Ok (concat raw_buffers, splice_points, current_time).
End Reassembly.

(** [check_api_key], given the value of the environment variable: [None]
    when it is unset or empty. *)
Definition check_api_key (INWORLD_API_KEY : option string) : option string :=
  match INWORLD_API_KEY with
  | None => None
  | Some EmptyString => None
  | Some api_key => Some api_key
  end.

(** The buffers as [combine_audio_buffers] reads them: [len] of a slot that
    still holds [None] is a [TypeError]. *)
Fixpoint typed_buffers (audio_buffers : list (option bytes))
    : result (list bytes) :=
  match audio_buffers with
  | [] => Ok []
  | None :: _ => Raise TypeError
  | Some buffer :: rest =>
      buffers ← typed_buffers rest;
      Ok (buffer :: buffers)
  end.

Section Main.
Variable format_time : float -> string.

(** The [try] block of [main]: the exit status, and the frames written to
    the output file when the synthesis went through.  Any exception,
    the [ValueError] of an executor without workers included, makes the
    status 1. *)
Definition main_try (service : nat -> str -> nat -> response)
    (as_completed : list future -> list future)
    (chunks : list TextChunk) : Z * option bytes :=
  match
    audio_buffers ← synthesize_in_parallel service as_completed chunks;
    buffers ← typed_buffers audio_buffers;
    combine_audio_buffers format_time buffers chunks
  with
  | Ok (combined_audio, splice_points, total_duration) =>
      (0, Some combined_audio)
  | Raise _ => (1, None)
  end.

(** [main], given the environment variable and the content of the input
    file ([None] when reading it raises).  Writing the output file is
    taken to succeed. *)
Definition main (INWORLD_API_KEY : option string) (input_file : option str)
    (service : nat -> str -> nat -> response)
    (as_completed : list future -> list future)
    : option (Z * option bytes) :=
  match check_api_key INWORLD_API_KEY with
  | None => Some (1, None)
  | Some api_key =>
      match input_file with
      | None => Some (1, None)
      | Some text =>
          chunks ← chunk_text text;
          Some (main_try service as_completed chunks)
      end
  end.
End Main.

End LongInput.

(** ** [example_tts_long_input_compressed.py]: natural-boundary chunking *)

Module Compressed.

Definition MIN_CHUNK_SIZE : Z := 500.
Definition MAX_CHUNK_SIZE : Z := 1900.
Definition MAX_CONCURRENT_REQUESTS : Z := 2.
Definition MAX_RETRIES : nat := 3.

(** How a [while True] loop inside a function is left. *)
Inductive loop_exit := Break | Return (z : Z).

(** The two [while True] scans of [find_break_point], for the separator
    [sep] (a paragraph break or a line break). *)
Fixpoint separator_scan (fuel : nat) (sep search_text : str)
    (min_pos max_pos search_start : Z) : option loop_exit :=
  match fuel with
  | O => None
  | S fuel' =>
      let idx := find sep search_text search_start in
      if (idx =? -1) || (max_pos <=? idx) then Some Break
      else if min_pos <=? idx then Some (Return (idx + len sep))
      else separator_scan fuel' sep search_text min_pos max_pos (idx + 1)
  end.

(** Steps 3 to 5 of [find_break_point]: sentence ends, then the last
    space. *)
Definition sentence_or_space (search_text : str) (min_pos max_pos : Z) : Z :=
  let matches := finditer sentence_end_pattern search_text in
  match filter (fun m => min_pos <= m_start m) matches with
  | m :: _ => m_end m
  | [] =>
      let last_sentence_end := fold_left (fun _ m => m_end m) matches (-1) in
      if 0 <? last_sentence_end then last_sentence_end
      else
        let space_index := rfind (of_string " ") search_text in
        if 0 <? space_index then space_index + 1 else max_pos
  end.

Definition newline : str := [10%N].

Definition find_break_point (text : str) (min_pos max_pos : Z)
    (chunk_index : Z) : option Z :=
  let search_text := slice_to text max_pos in
  let fuel := S (length search_text) in
  match separator_scan fuel (newline ++ newline) search_text
          min_pos max_pos min_pos with
  | None => None
  | Some (Return z) => Some z
  | Some Break =>
      match separator_scan fuel newline search_text
              min_pos max_pos min_pos with
      | None => None
      | Some (Return z) => Some z
      | Some Break => Some (sentence_or_space search_text min_pos max_pos)
      end
  end.

(** The [while current_position < len(text)] loop of [chunk_text]. *)
Fixpoint chunk_loop (fuel : nat) (text : str) (current_position : Z)
    (chunks : list TextChunk) : option (list TextChunk) :=
  match fuel with
  | O => None
  | S fuel' =>
      if current_position <? len text then
        let remaining_text := slice_from text current_position in
        if len remaining_text <=? MAX_CHUNK_SIZE then
          let chunk_content := strip remaining_text in
          Some (if truthy chunk_content
                then chunks ++ [mkTextChunk chunk_content current_position (len text)]
                else chunks)
        else
          match find_break_point remaining_text MIN_CHUNK_SIZE
                  MAX_CHUNK_SIZE (len chunks) with
          | None => None
          | Some chunk_end =>
              let chunk_content := strip (slice_to remaining_text chunk_end) in
              let chunks' :=
                if truthy chunk_content
                then chunks ++ [mkTextChunk chunk_content current_position
                                  (current_position + chunk_end)]
                else chunks in
              chunk_loop fuel' text (current_position + chunk_end) chunks'
          end
      else Some chunks
  end.

Definition chunk_text (text : str) : option (list TextChunk) :=
  chunk_loop (S (length text)) text 0 [].

Definition RETRY_BASE_DELAY : float := 1%float.

(** The [for attempt in range(MAX_RETRIES)] loop of [synthesize_speech]. *)
Fixpoint retry_loop (server : str -> nat -> response) (text : str)
    (attempts : list nat) (w : world) : result bytes * world :=
  match attempts with
  | [] => (Raise RuntimeError, w)
  | attempt :: rest =>
      let '(r, w1) := post server text w in
      match r with
      | Audio audio_data => (Ok audio_data, w1)
      | Malformed => (Raise KeyError, w1)
      | Failed e =>
          let is_rate_limit := bool_decide (response_status e = Some 429) in
          let is_last_attempt := (attempt =? MAX_RETRIES - 1)%nat in
          if is_rate_limit && negb is_last_attempt then
            let delay :=
              (RETRY_BASE_DELAY * Z_to_float (2 ^ Z.of_nat attempt))%float in
            retry_loop server text rest (sleep delay w1)
          else (Raise (RequestException e), w1)
      end
  end.

(** The chunk index and count of the source only fill the log lines; the
    model leaves them out. *)
Definition synthesize_speech (server : str -> nat -> response) (text : str)
    (config : SynthesisConfig) (w : world) : result bytes * world :=
  retry_loop server text (seq 0 MAX_RETRIES) w.

Definition synthesize_chunk_wrapper (service : nat -> str -> nat -> response)
    (args : TextChunk * SynthesisConfig * nat * nat) : future :=
  let '(chunk, config, index, total) := args in
  audio_data ←
    fst (synthesize_speech (service index) (text chunk) config new_world);
  Ok (index, audio_data).

(** [as_completed] is the order in which the futures complete; the size of
    the worker pool, which is positive, only shapes that order. *)
Definition synthesize_all_chunks (service : nat -> str -> nat -> response)
    (as_completed : list future -> list future)
    (chunks : list TextChunk) (config : SynthesisConfig)
    : result (list (option bytes)) :=
  let synthesis_args :=
    map (fun '(i, chunk) => (chunk, config, i, length chunks))
      (enumerate chunks) in
  let audio_buffers := replicate (length chunks) None in
  executor ← ThreadPoolExecutor MAX_CONCURRENT_REQUESTS;
  let futures := map (synthesize_chunk_wrapper service) synthesis_args in
  collect (as_completed futures) audio_buffers.

(** [b''.join(audio_buffers)]; a slot still holding [None] is a
    [TypeError]. *)
Fixpoint combine_audio_buffers (audio_buffers : list (option bytes))
    : result bytes :=
  match audio_buffers with
  | [] => Ok []
  | None :: _ => Raise TypeError
  | Some buffer :: rest =>
      joined ← combine_audio_buffers rest;
      Ok (buffer ++ joined)
  end.

(** The [try] block of [main]: the exit status, and the bytes saved to the
    output file when the synthesis went through. *)
Definition main_try (service : nat -> str -> nat -> response)
    (as_completed : list future -> list future)
    (chunks : list TextChunk) (config : SynthesisConfig)
    : Z * option bytes :=
  match
    audio_buffers ← synthesize_all_chunks service as_completed chunks config;
    combine_audio_buffers audio_buffers
  with
  | Ok combined_audio => (0, Some combined_audio)
  | Raise _ => (1, None)
  end.

(** [check_api_key], given the value of the environment variable: [None]
    when it is unset or empty. *)
Definition check_api_key (INWORLD_API_KEY : option string) : option string :=
  match INWORLD_API_KEY with
  | None => None
  | Some EmptyString => None
  | Some api_key => Some api_key
  end.

(** [read_input_text], given the content of the input file ([None] when
    reading it raises). *)
Definition read_input_text (input_file : option str) : option str :=
  input_file.

(** [main], given the environment variable and the content of the input
    file.  Writing the output file is taken to succeed. *)
Definition main (INWORLD_API_KEY : option string) (input_file : option str)
    (service : nat -> str -> nat -> response)
    (as_completed : list future -> list future)
    : option (Z * option bytes) :=
  match check_api_key INWORLD_API_KEY with
  | None => Some (1, None)
  | Some api_key =>
      let config :=
        mkSynthesisConfig "Edward" "inworld-tts-1.5-max" api_key "MP3" in
      match read_input_text input_file with
      | None => Some (1, None)
      | Some text =>
          if truthy text then
            chunks ← chunk_text text;
            Some (main_try service as_completed chunks config)
          else Some (1, None)
      end
  end.

End Compressed.

(** * Specification vocabulary

    Predicates and sample inputs used to state the properties. *)

(** ** Text *)

(** [text[a:b]] for [0 <= a <= b]. *)
Definition substr (s : str) (a b : Z) : str :=
  take (Z.to_nat (b - a)) (drop (Z.to_nat a) s).

(** Only whitespace, or nothing at all. *)
Definition blank (s : str) : Prop := Forall (fun c => isspace c = true) s.

(** A non-empty match between the offsets [lo] and [hi]. *)
Definition match_in (lo hi : Z) (m : Match) : Prop :=
  lo <= m_start m /\ m_start m < m_end m /\ m_end m <= hi.

(** ** The chunking loop, for any boundary finder

    Both scripts run the same loop around a different boundary finder:
    [loop] is that loop with the finder [cut] and the size limit as
    parameters. *)

Section ChunkLoop.
Variable max_size : Z.
Variable cut : str -> Z -> option Z.

Fixpoint loop (fuel : nat) (text : str) (current_position : Z)
    (chunks : list TextChunk) : option (list TextChunk) :=
  match fuel with
  | O => None
  | S fuel' =>
      if current_position <? len text then
        let remaining_text := slice_from text current_position in
        if len remaining_text <=? max_size then
          let chunk := strip remaining_text in
          Some (if truthy chunk
                then chunks ++ [mkTextChunk chunk current_position (len text)]
                else chunks)
        else
          match cut remaining_text (len chunks) with
          | None => None
          | Some chunk_end =>
              let chunk := strip (slice_to remaining_text chunk_end) in
              let chunks' :=
                if truthy chunk
                then chunks ++ [mkTextChunk chunk current_position
                                  (current_position + chunk_end)]
                else chunks in
              loop fuel' text (current_position + chunk_end) chunks'
          end
      else Some chunks
  end.
End ChunkLoop.

(** [tiles max_size text pos cs] describes what the loop does from the
    cursor [pos] on: it cuts [text] into consecutive slices of at most
    [max_size] characters up to the end of the text, and [cs] lists, in
    order, the slices that are not blank. *)
Inductive tiles (max_size : Z) (text : str) : Z -> list TextChunk -> Prop :=
| tiles_end pos :
    pos = len text -> tiles max_size text pos []
| tiles_skip pos e cs :
    0 <= pos < e -> e <= len text -> e - pos <= max_size ->
    blank (substr text pos e) ->
    tiles max_size text e cs -> tiles max_size text pos cs
| tiles_chunk pos e cs :
    0 <= pos < e -> e <= len text -> e - pos <= max_size ->
    strip (substr text pos e) <> [] ->
    tiles max_size text e cs ->
    tiles max_size text pos (mkTextChunk (strip (substr text pos e)) pos e :: cs).

(** ** Chunks *)

(** The chunk [c] is the trimmed, non-empty slice [text[start:end]] of at
    most [max_size] characters, inside the document. *)
Definition chunk_ok (max_size : Z) (doc : str) (c : TextChunk) : Prop :=
  0 <= start_char c /\ start_char c < end_char c /\ end_char c <= len doc /\
  end_char c - start_char c <= max_size /\
  text c = strip (substr doc (start_char c) (end_char c)) /\
  text c <> [].

(** Consecutive chunks do not overlap and follow the document order. *)
Fixpoint ascending (lo : Z) (cs : list TextChunk) : Prop :=
  match cs with
  | [] => True
  | c :: cs' => lo <= start_char c /\ start_char c < end_char c
                /\ ascending (end_char c) cs'
  end.

(** Position [p] lies in the range of one of the chunks. *)
Definition covered (cs : list TextChunk) (p : Z) : Prop :=
  exists c, c ∈ cs /\ start_char c <= p < end_char c.

(** The chunk ranges as C4 states them: the first chunk starts at 0, each
    chunk starts where the previous one ends, and the last chunk ends at
    the end of the document. *)
Definition contiguous_cover (n : Z) (cs : list TextChunk) : Prop :=
  (forall c, head cs = Some c -> start_char c = 0) /\
  (forall (i : nat) c d, cs !! i = Some c -> cs !! S i = Some d ->
     start_char d = end_char c) /\
  (forall c, last cs = Some c -> end_char c = n).

(** The chunk ranges as the code produces them: inside the document, in
    ascending order without overlap, and leaving out only whitespace. *)
Definition ascending_cover (doc : str) (cs : list TextChunk) : Prop :=
  Forall (fun c => 0 <= start_char c /\ start_char c < end_char c
                   /\ end_char c <= len doc) cs /\
  (forall (i : nat) c d, cs !! i = Some c -> cs !! S i = Some d ->
     end_char c <= start_char d) /\
  (forall (p : nat) ch, doc !! p = Some ch -> isspace ch = false ->
     covered cs (Z.of_nat p)).

(** A document of 1901 characters: 1899 letters, a full stop, a space. *)
Definition doc_trailing_space : str :=
  replicate 1899 97%N ++ of_string ". ".

Definition chunk_a : TextChunk := mkTextChunk (of_string "One.") 0 5.
Definition chunk_b : TextChunk := mkTextChunk (of_string "Two.") 5 9.

(** ** The sentence-first policy *)

(** The cut offset as C5 states it, for a window [w] with [cut] chosen. *)
Definition sentence_first_as_stated (w : str) (cut : Z) : Prop :=
  let ms := finditer sentence_end_pattern w in
  (forall pre m post, ms = pre ++ m :: post ->
     Forall (fun x => m_end x < LongInput.MIN_CHUNK_SIZE) pre ->
     LongInput.MIN_CHUNK_SIZE <= m_end m -> cut = m_end m) /\
  (forall m, Forall (fun x => m_end x < LongInput.MIN_CHUNK_SIZE) ms ->
     last ms = Some m -> cut = m_end m) /\
  (forall j : nat, ms = [] -> w !! j = Some 32%N ->
     (forall j' : nat, (j < j')%nat -> w !! j' <> Some 32%N) ->
     cut = Z.of_nat j + 1) /\
  (ms = [] -> (32%N ∉ w) -> cut = LongInput.MAX_CHUNK_SIZE).

(** A window of 1900 characters: one space, then letters only. *)
Definition window_leading_space : str := 32%N :: replicate 1899 97%N.

(** ** Reassembly and the splice report *)

(** The duration computed for one buffer: the length of its raw audio
    divided by [bytes_per_second]. *)
Definition duration_of (buffer : bytes) : float :=
  (Z_to_float (len (LongInput.extract_raw_audio buffer))
   / Z_to_float LongInput.bytes_per_second)%float.

(** The durations of [buffers] added one after the other to [t], the way
    [current_time += duration] does. *)
Definition elapsed (t : float) (buffers : list bytes) : float :=
  fold_left (fun t b => (t + duration_of b)%float) buffers t.

(** ** The dispatcher *)

(** The futures of a dispatch whose call for chunk [i] ends as
    [outcome i chunk]. *)
Definition futures_of (outcome : nat -> TextChunk -> result bytes)
    (chunks : list TextChunk) : list future :=
  map (fun '(i, chunk) => audio_data ← outcome i chunk; Ok (i, audio_data))
    (enumerate chunks).

Definition demo_config : SynthesisConfig :=
  mkSynthesisConfig "Edward" "inworld-tts-1.5-max" "key" "MP3".

(** A service that answers every request for chunk [i] with one byte. *)
Definition service_ok (i : nat) (text : str) (attempt : nat) : response :=
  Audio [match i with O => Byte.x00 | _ => Byte.x01 end].

(** The byte of a code point below 256, and [0xff] for the others. *)
Definition byte_of_char (c : char) : Byte.byte :=
  default Byte.xff (Byte.of_N c).

(** A service that answers every request with the text it was sent, one
    byte for each character. *)
Definition service_echo (i : nat) (text : str) (attempt : nat) : response :=
  Audio (map byte_of_char text).

(** ** Retry *)

(** [RETRY_BASE_DELAY * (2 ** attempt)] *)
Definition backoff (attempt : nat) : float :=
  (Compressed.RETRY_BASE_DELAY * Z_to_float (2 ^ Z.of_nat attempt))%float.

(** The pauses of a trace, in order. *)
Fixpoint pauses (tr : list event) : list float :=
  match tr with
  | [] => []
  | Sleep delay :: tr' => delay :: pauses tr'
  | Post _ :: tr' => pauses tr'
  end.

(** A service that answers every request with HTTP 429. *)
Definition always_rate_limited (text : str) (attempt : nat) : response :=
  Failed (HTTPError 429).

(** A service that answers every request for every chunk with HTTP 429. *)
Definition always_rate_limited_service (i : nat) (text : str)
    (attempt : nat) : response :=
  Failed (HTTPError 429).

(** A service whose every request times out. *)
Definition always_timeout (text : str) (attempt : nat) : response :=
  Failed Timeout.

(** The same answer, with a timeout turned into HTTP 429. *)
Definition as_rate_limit (r : response) : response :=
  match r with
  | Failed Timeout => Failed (HTTPError 429)
  | _ => r
  end.

(** The retry policy as C8 states it: a call whose requests time out
    leaves the same trace of requests and pauses as the call whose
    requests are answered with HTTP 429 instead. *)
Definition timeout_retried_as_stated (server : str -> nat -> response)
    (text : str) (config : SynthesisConfig) : Prop :=
  trace (snd (Compressed.synthesize_speech server text config new_world))
  = trace (snd (Compressed.synthesize_speech
                  (fun t n => as_rate_limit (server t n)) text config
                  new_world)).

(** ** Content of the chunks *)

(** The characters of [s] that are not whitespace, in order. *)
Definition squeeze (s : str) : str := filter (fun c => isspace c = false) s.

(** [t] is [s] without a blank prefix and a blank suffix, and neither
    starts nor ends with whitespace. *)
Definition trimmed_of (s t : str) : Prop :=
  (exists l r, s = l ++ t ++ r /\ blank l /\ blank r) /\
  (exists first, head t = Some first /\ isspace first = false) /\
  (exists final, last t = Some final /\ isspace final = false).

(** ** Boundaries of the natural policy *)

(** [sub] occurs in [s] at index [k]. *)
Definition occurs_at (sub s : str) (k : nat) : Prop :=
  startswith sub (drop k s) = true.

(** A line break at index [j] of [w]. *)
Definition newline_at (w : str) (j : nat) : Prop := w !! j = Some 10%N.

(** A paragraph break, two line breaks in a row, at index [j] of [w]. *)
Definition paragraph_break_at (w : str) (j : nat) : Prop :=
  w !! j = Some 10%N /\ w !! S j = Some 10%N.

(** The text of a sentence end: a terminator, at most one quote, then
    whitespace. *)
Definition sentence_end_text (t : str) : Prop :=
  exists c q ws,
    t = c :: q ++ ws /\ is_terminator c = true /\
    (q = [] \/ exists d, q = [d] /\ is_quote d = true) /\ blank ws.

(** * Properties *)

(** ** Slices and lengths *)

Lemma len_nonneg {A} (s : list A) : 0 <= len s.
Proof. unfold len. lia. Qed.

Lemma slice_from_drop {A} (s : list A) i :
  0 <= i -> slice_from s i = drop (Z.to_nat i) s.
Proof.
  intros Hi. unfold slice_from, slice_bound.
  destruct (Z.ltb_spec i 0); [lia|].
  destruct (Z.le_ge_cases i (Z.of_nat (length s))).
  - by rewrite Z.min_l.
  - rewrite Z.min_r, Nat2Z.id by lia.
    rewrite !drop_ge; [done | lia | lia].
Qed.

Lemma slice_to_take {A} (s : list A) j :
  0 <= j -> slice_to s j = take (Z.to_nat j) s.
Proof.
  intros Hj. unfold slice_to, slice_bound.
  destruct (Z.ltb_spec j 0); [lia|].
  destruct (Z.le_ge_cases j (Z.of_nat (length s))).
  - by rewrite Z.min_l.
  - rewrite Z.min_r, Nat2Z.id by lia.
    rewrite !take_ge; [done | lia | lia].
Qed.

Lemma len_slice_to {A} (s : list A) j :
  0 <= j -> len (slice_to s j) = Z.min j (len s).
Proof.
  intros Hj. rewrite slice_to_take by done.
  unfold len. rewrite length_take. lia.
Qed.

Lemma len_slice_from {A} (s : list A) i :
  0 <= i <= len s -> len (slice_from s i) = len s - i.
Proof.
  intros Hi. rewrite slice_from_drop by lia.
  unfold len in *. rewrite length_drop. lia.
Qed.

(** ** Stripping *)

Lemma lstrip_nil s : lstrip s = [] <-> blank s.
Proof.
  unfold blank. induction s as [|c s IH]; simpl.
  - split; [constructor | done].
  - destruct (isspace c) eqn:E.
    + rewrite IH. split; [by constructor | by inversion 1].
    + split; [done | inversion 1; congruence].
Qed.

Lemma lstrip_head s c s' : lstrip s = c :: s' -> isspace c = false.
Proof.
  induction s as [|d s IH]; simpl; [done|].
  destruct (isspace d) eqn:E; [done | congruence].
Qed.

Lemma lstrip_blank_iff s : blank (lstrip s) <-> blank s.
Proof.
  split.
  - intros H. apply lstrip_nil. destruct (lstrip s) as [|c s'] eqn:E; [done|].
    apply lstrip_head in E. inversion H; congruence.
  - intros H. apply lstrip_nil in H. rewrite H. constructor.
Qed.

Lemma strip_nil s : strip s = [] <-> blank s.
Proof.
  unfold strip, rstrip. rewrite <- lstrip_blank_iff.
  split.
  - intros H. apply (f_equal (@rev char)) in H. rewrite rev_involutive in H.
    simpl in H. apply lstrip_nil in H. unfold blank in *.
    rewrite Forall_forall in *. intros x Hx. apply H.
    apply list_elem_of_In, in_rev. rewrite rev_involutive.
    by apply list_elem_of_In.
  - intros H. assert (Hr : blank (rev (lstrip s))).
    { unfold blank in *. rewrite Forall_forall in *. intros x Hx. apply H.
      apply list_elem_of_In, in_rev. by apply list_elem_of_In. }
    apply lstrip_nil in Hr. by rewrite Hr.
Qed.

Lemma truthy_true {A} (s : list A) : truthy s = true <-> s <> [].
Proof. destruct s; simpl; split; congruence. Qed.

Lemma truthy_false {A} (s : list A) : truthy s = false <-> s = [].
Proof. destruct s; simpl; split; congruence. Qed.

(** ** Matches of the sentence pattern *)

Lemma match_plus_shorter p s k res :
  match_plus p s k = Some res ->
  exists s', k s' = Some res /\ (length s' < length s)%nat.
Proof.
  revert res. induction s as [|c s IH]; simpl; intros res H; [done|].
  destruct (p c); [|done].
  destruct (match_plus p s k) as [r|] eqn:E.
  - destruct (IH r eq_refl) as (s' & Hk & Hl). exists s'. split; [congruence | lia].
  - exists s. split; [done | lia].
Qed.

Lemma match_re_shorter r s k res :
  match_re r s k = Some res ->
  exists s', k s' = Some res /\ (length s' <= length s)%nat.
Proof.
  revert s k res. induction r as [p|r IH|p| |r1 IH1 r2 IH2|r1 IH1 r2 IH2];
    simpl; intros s k res H.
  - destruct s as [|c s]; [done|]. destruct (p c); [|done].
    exists s. simpl. split; [done | lia].
  - destruct (match_re r s k) as [x|] eqn:E.
    + apply IH in E. destruct E as (s' & Hk & Hl). exists s'. split; [congruence | done].
    + by exists s.
  - apply match_plus_shorter in H. destruct H as (s' & Hk & Hl).
    exists s'. split; [done | lia].
  - destruct (at_eos s); [|done]. by exists s.
  - apply IH1 in H. destruct H as (s1 & H & Hl1).
    apply IH2 in H. destruct H as (s2 & H & Hl2). exists s2. split; [done | lia].
  - destruct (match_re r1 s k) as [x|] eqn:E.
    + apply IH1 in E. destruct E as (s' & Hk & Hl). exists s'. split; [congruence | done].
    + by apply IH2.
Qed.

(** Every regular expression that starts with a character class consumes
    at least one character. *)
Lemma match_cls_seq_shorter p r s rest :
  match_here (Seq (Cls p) r) s = Some rest -> (length rest < length s)%nat.
Proof.
  unfold match_here. simpl. destruct s as [|c s]; [done|].
  destruct (p c); [|done]. intros H. apply match_re_shorter in H.
  destruct H as (s' & [= ->] & Hl). simpl. lia.
Qed.

Lemma match_alt r1 r2 s rest :
  match_here (Alt r1 r2) s = Some rest ->
  match_here r1 s = Some rest \/ match_here r2 s = Some rest.
Proof.
  unfold match_here. simpl. destruct (match_re r1 s Some); auto.
Qed.

Lemma sentence_match_shorter s rest :
  match_here sentence_end_pattern s = Some rest -> (length rest < length s)%nat.
Proof.
  intros H. apply match_alt in H.
  destruct H as [H|H]; by apply match_cls_seq_shorter in H.
Qed.

Lemma finditer_from_bounds s : forall pos skip,
  Forall (match_in pos (pos + len s)) (finditer_from sentence_end_pattern pos skip s).
Proof.
  induction s as [|c s IH]; intros pos skip.
  - destruct skip; simpl; [|constructor].
    destruct (match_here sentence_end_pattern []) eqn:E; [|constructor].
    apply sentence_match_shorter in E. simpl in E. lia.
  - assert (Hw : forall k, Forall (match_in pos (pos + len (c :: s)))
                        (finditer_from sentence_end_pattern (pos + 1) k s)).
    { intros k. eapply Forall_impl; [apply IH|].
      unfold match_in, len. simpl length. intros m. lia. }
    destruct skip; simpl; [|apply Hw].
    destruct (match_here sentence_end_pattern (c :: s)) as [rest|] eqn:E; [|apply Hw].
    constructor; [|apply Hw].
    apply sentence_match_shorter in E. unfold match_in, len. simpl in *. lia.
Qed.

Lemma finditer_bounds s :
  Forall (match_in 0 (len s)) (finditer sentence_end_pattern s).
Proof. apply (finditer_from_bounds s 0 0%nat). Qed.

(** ** [find] and [rfind] *)

Lemma startswith_length sub s :
  startswith sub s = true -> (length sub <= length s)%nat.
Proof.
  revert s. induction sub as [|a sub IH]; intros [|b s]; simpl;
    [lia | lia | done |].
  intros [_ H]%andb_prop. apply IH in H. lia.
Qed.

Lemma find_from_range sub s : forall i,
  0 <= i ->
  find_from sub s i = -1 \/
  i <= find_from sub s i /\ find_from sub s i + len sub <= i + len s.
Proof.
  induction s as [|c s IH]; intros i Hi; simpl.
  - destruct (startswith sub []) eqn:E; [|by left].
    right. apply startswith_length in E. unfold len. lia.
  - destruct (startswith sub (c :: s)) eqn:E.
    + right. apply startswith_length in E. unfold len. lia.
    + destruct (IH (i + 1)) as [H|H]; [lia | by left |].
      right. unfold len in *. simpl length. lia.
Qed.

Lemma find_range sub s start :
  sub <> [] -> 0 <= start ->
  find sub s start = -1 \/
  start <= find sub s start /\ find sub s start + len sub <= len s.
Proof.
  intros Hsub Hstart. unfold find, slice_bound.
  destruct (Z.ltb_spec start 0); [lia|].
  destruct (Z.le_gt_cases start (Z.of_nat (length s))) as [Hle|Hgt].
  - rewrite Z.min_l by done.
    destruct (find_from_range sub (drop (Z.to_nat start) s)
                (Z.of_nat (Z.to_nat start))) as [H'|H']; [lia | by left |].
    right. unfold len in *. rewrite length_drop in H'. lia.
  - left. rewrite Z.min_r, Nat2Z.id by lia. rewrite drop_ge by lia.
    destruct sub; [done | reflexivity].
Qed.

(** [rfind] of a single character: [-1] when it does not occur, otherwise
    the index of its last occurrence. *)
Lemma rfind_from_char c s : forall i,
  0 <= i ->
  (rfind_from [c] s i = -1 /\ c ∉ s) \/
  exists j : nat,
    rfind_from [c] s i = i + Z.of_nat j /\ s !! j = Some c /\
    forall j' : nat, (j < j')%nat -> s !! j' <> Some c.
Proof.
  induction s as [|d s IH]; intros i Hi; simpl.
  - left. split; [done | apply not_elem_of_nil].
  - destruct (IH (i + 1)) as [[Hr Hn]|(j & Hr & Hj & Hlast)]; [lia | |].
    + rewrite Hr. simpl. rewrite andb_true_r.
      destruct (N.eqb_spec c d) as [->|Hne].
      * right. exists 0%nat. split; [lia|]. split; [done|].
        intros [|j'] ?; [lia|]. simpl. intros Hj.
        apply list_elem_of_lookup_2 in Hj. done.
      * left. split; [done|]. rewrite elem_of_cons. intros [?|?]; done.
    + right. exists (S j). rewrite Hr.
      destruct (Z.eqb_spec (i + 1 + Z.of_nat j) (-1)); [lia|].
      split; [lia|]. split; [done|].
      intros [|j'] ?; [lia|]. simpl. apply Hlast. lia.
Qed.

Lemma rfind_char c s :
  (rfind [c] s = -1 /\ c ∉ s) \/
  exists j : nat,
    rfind [c] s = Z.of_nat j /\ s !! j = Some c /\
    forall j' : nat, (j < j')%nat -> s !! j' <> Some c.
Proof. apply (rfind_from_char c s 0). lia. Qed.

Lemma rfind_char_range c s : rfind [c] s = -1 \/ 0 <= rfind [c] s < len s.
Proof.
  destruct (rfind_char c s) as [[H _]|(j & H & Hj & _)]; [by left|].
  right. apply lookup_lt_Some in Hj. unfold len. lia.
Qed.

(** ** Bounds on the cut offsets *)

Lemma last_match_in lo hi (ms : list Match) m :
  Forall (match_in lo hi) ms -> last ms = Some m -> match_in lo hi m.
Proof.
  intros H Hl. apply last_Some_elem_of in Hl.
  rewrite Forall_forall in H. by apply H.
Qed.

Lemma space_cut_range w (fallback : Z) :
  let space_index := rfind (of_string " ") w in
  1 <= fallback ->
  1 <= (if 0 <? space_index then space_index + 1 else fallback)
    <= Z.max (len w) fallback.
Proof.
  intros space_index Hf. subst space_index.
  change (of_string " ") with [32%N].
  destruct (rfind_char_range 32%N w) as [->|H]; simpl; [lia|].
  destruct (Z.ltb_spec 0 (rfind [32%N] w)); lia.
Qed.

Lemma sentence_cut_range w :
  1 <= LongInput.sentence_cut w <= Z.max (len w) LongInput.MAX_CHUNK_SIZE.
Proof.
  unfold LongInput.sentence_cut.
  pose proof (finditer_bounds w) as Hb.
  destruct (filter _ _) as [|m vs] eqn:Ef.
  - destruct (last _) as [m|] eqn:El.
    + apply (last_match_in _ _ _ _ Hb) in El. unfold match_in in El. lia.
    + apply space_cut_range. done.
  - assert (Hm : m ∈ finditer sentence_end_pattern w).
    { eapply (proj1 (list_elem_of_filter _ _ _)). rewrite Ef. left. }
    rewrite Forall_forall in Hb. apply Hb in Hm. unfold match_in in Hm. lia.
Qed.

Lemma separator_scan_total fuel sep w min_pos max_pos :
  sep <> [] -> 0 <= min_pos -> len w <= max_pos ->
  Compressed.separator_scan (S fuel) sep w min_pos max_pos min_pos = Some Compressed.Break \/
  exists z, Compressed.separator_scan (S fuel) sep w min_pos max_pos min_pos = Some (Compressed.Return z)
            /\ 1 <= z <= max_pos.
Proof.
  intros Hsep Hmin Hmax. simpl.
  destruct (find_range sep w min_pos Hsep Hmin) as [->|[H1 H2]]; [by left|].
  destruct (Z.eqb_spec (find sep w min_pos) (-1)); [by left|].
  destruct (Z.leb_spec max_pos (find sep w min_pos)); [by left|]. simpl.
  destruct (Z.leb_spec min_pos (find sep w min_pos)); [|lia].
  right. eexists. split; [done|].
  assert (0 < len sep) by (destruct sep; [done | unfold len; simpl; lia]). lia.
Qed.

Lemma fold_last_end (ms : list Match) (d : Z) :
  fold_left (fun _ m => m_end m) ms d =
  match last ms with Some m => m_end m | None => d end.
Proof.
  revert d. induction ms as [|m ms IH]; intros d; [done|].
  simpl fold_left. rewrite IH. destruct ms; [done|].
  rewrite last_cons_cons. destruct (last (m0 :: ms)) eqn:E; [done|].
  by apply last_None in E.
Qed.

Lemma sentence_or_space_range w min_pos max_pos :
  1 <= max_pos ->
  1 <= Compressed.sentence_or_space w min_pos max_pos <= Z.max (len w) max_pos.
Proof.
  intros Hmax. unfold Compressed.sentence_or_space.
  pose proof (finditer_bounds w) as Hb.
  destruct (filter _ _) as [|m vs] eqn:Ef.
  - rewrite fold_last_end. destruct (last _) as [m|] eqn:El.
    + apply (last_match_in _ _ _ _ Hb) in El. unfold match_in in El.
      destruct (Z.ltb_spec 0 (m_end m)); lia.
    + simpl. by apply space_cut_range.
  - assert (Hm : m ∈ finditer sentence_end_pattern w).
    { eapply (proj1 (list_elem_of_filter _ _ _)). rewrite Ef. left. }
    rewrite Forall_forall in Hb. apply Hb in Hm. unfold match_in in Hm. lia.
Qed.

Lemma find_break_point_range text min_pos max_pos chunk_index :
  0 <= min_pos -> 1 <= max_pos ->
  exists z, Compressed.find_break_point text min_pos max_pos chunk_index = Some z
            /\ 1 <= z <= max_pos.
Proof.
  intros Hmin Hmax. unfold Compressed.find_break_point.
  set (w := slice_to text max_pos).
  assert (Hw : len w <= max_pos).
  { unfold w. rewrite len_slice_to by lia. lia. }
  destruct (separator_scan_total (length w) (Compressed.newline ++ Compressed.newline) w min_pos max_pos)
    as [->|(z & -> & Hz)]; [done | done | done | | by exists z].
  destruct (separator_scan_total (length w) Compressed.newline w min_pos max_pos)
    as [->|(z & -> & Hz)]; [done | done | done | | by exists z].
  eexists. split; [done|].
  pose proof (sentence_or_space_range w min_pos max_pos Hmax). lia.
Qed.

(** ** The chunking loop tiles the document *)

Section ChunkLoopProperties.
Variable max_size : Z.
Variable cut : str -> Z -> option Z.
Hypothesis max_size_pos : 1 <= max_size.
Hypothesis cut_range : forall rem i,
  max_size < len rem -> exists e, cut rem i = Some e /\ 1 <= e <= max_size.

Lemma loop_tiles fuel : forall text pos acc,
  0 <= pos <= len text -> len text - pos < Z.of_nat fuel ->
  exists new, loop max_size cut fuel text pos acc = Some (acc ++ new)
              /\ tiles max_size text pos new.
Proof.
  induction fuel as [|fuel IH]; intros text pos acc Hpos Hfuel; [lia|].
  cbn [loop].
  destruct (Z.ltb_spec pos (len text)) as [Hlt|Hge].
  2:{ exists []. rewrite app_nil_r. split; [done|]. apply tiles_end. lia. }
  rewrite len_slice_from by lia. rewrite slice_from_drop by lia.
  destruct (Z.leb_spec (len text - pos) max_size) as [Hfit|Hbig].
  - assert (Hsub : substr text pos (len text) = drop (Z.to_nat pos) text).
    { unfold substr. apply take_ge. rewrite length_drop. unfold len. lia. }
    destruct (truthy _) eqn:Et.
    + eexists [_]. split; [done|]. rewrite <- Hsub.
      apply tiles_chunk; [lia | lia | lia | | by apply tiles_end].
      rewrite Hsub. by apply truthy_true.
    + exists []. rewrite app_nil_r. split; [done|].
      apply (tiles_skip _ _ pos (len text)); [lia | lia | lia | | by apply tiles_end].
      rewrite Hsub. by apply strip_nil, truthy_false.
  - destruct (cut_range (drop (Z.to_nat pos) text) (len acc))
      as (e & -> & He).
    { unfold len in *. rewrite length_drop. lia. }
    rewrite slice_to_take by lia.
    assert (Hsub : substr text pos (pos + e)
                   = take (Z.to_nat e) (drop (Z.to_nat pos) text)).
    { unfold substr. do 2 f_equal. lia. }
    rewrite <- Hsub.
    destruct (truthy _) eqn:Et.
    + destruct (IH text (pos + e)
                  (acc ++ [mkTextChunk (strip (substr text pos (pos + e)))
                             pos (pos + e)]))
        as (new & -> & Ht); [lia | lia |].
      eexists (_ :: new). split; [by rewrite <- app_assoc|].
      apply tiles_chunk; [lia | lia | lia | by apply truthy_true | done].
    + destruct (IH text (pos + e) acc) as (new & -> & Ht); [lia | lia |].
      exists new. split; [done|].
      apply (tiles_skip _ _ pos (pos + e)); [lia | lia | lia | | done].
      by apply strip_nil, truthy_false.
Qed.
End ChunkLoopProperties.

Lemma LongInput_chunk_loop_eq fuel : forall text pos acc,
  LongInput.chunk_loop fuel text pos acc =
  loop LongInput.MAX_CHUNK_SIZE
    (fun rem _ => Some (LongInput.sentence_cut (slice_to rem LongInput.MAX_CHUNK_SIZE)))
    fuel text pos acc.
Proof.
  induction fuel as [|fuel IH]; intros text pos acc; [done|].
  cbn [LongInput.chunk_loop loop]. by rewrite !IH.
Qed.

Lemma Compressed_chunk_loop_eq fuel : forall text pos acc,
  Compressed.chunk_loop fuel text pos acc =
  loop Compressed.MAX_CHUNK_SIZE
    (fun rem i => Compressed.find_break_point rem Compressed.MIN_CHUNK_SIZE
                    Compressed.MAX_CHUNK_SIZE i)
    fuel text pos acc.
Proof.
  induction fuel as [|fuel IH]; intros text pos acc; [done|].
  cbn [Compressed.chunk_loop loop].
  destruct (Compressed.find_break_point _ _ _ _); [|done]. by rewrite !IH.
Qed.

Lemma LongInput_chunk_text_tiles text :
  exists chunks, LongInput.chunk_text text = Some chunks
                 /\ tiles LongInput.MAX_CHUNK_SIZE text 0 chunks.
Proof.
  unfold LongInput.chunk_text. rewrite LongInput_chunk_loop_eq.
  apply (loop_tiles LongInput.MAX_CHUNK_SIZE _ ltac:(done)) with (acc := []).
  - intros rem _ Hrem. eexists. split; [done|].
    pose proof (sentence_cut_range (slice_to rem LongInput.MAX_CHUNK_SIZE)) as H.
    rewrite len_slice_to in H by done. lia.
  - pose proof (len_nonneg text). lia.
  - unfold len. lia.
Qed.

Lemma Compressed_chunk_text_tiles text :
  exists chunks, Compressed.chunk_text text = Some chunks
                 /\ tiles Compressed.MAX_CHUNK_SIZE text 0 chunks.
Proof.
  unfold Compressed.chunk_text. rewrite Compressed_chunk_loop_eq.
  apply (loop_tiles Compressed.MAX_CHUNK_SIZE _ ltac:(done)) with (acc := []).
  - intros rem i _. by apply find_break_point_range.
  - pose proof (len_nonneg text). lia.
  - unfold len. lia.
Qed.

(** ** What a tiling says about the chunks *)

Lemma tiles_chunk_ok max_size doc pos cs :
  0 <= pos -> tiles max_size doc pos cs -> Forall (chunk_ok max_size doc) cs.
Proof.
  intros Hpos H. induction H as [pos ?|pos e cs ? ? ? ? ? IH|pos e cs ? ? ? ? ? IH].
  - constructor.
  - apply IH. lia.
  - constructor; [|apply IH; lia]. unfold chunk_ok. simpl. repeat split; (lia || done).
Qed.

Lemma tiles_ascending max_size doc pos cs :
  tiles max_size doc pos cs -> ascending pos cs.
Proof.
  induction 1 as [pos ?|pos e cs ? ? ? ? ? IH|pos e cs ? ? ? ? ? IH]; simpl.
  - done.
  - destruct cs as [|c cs]; [done|]. simpl in *.
    destruct IH as (? & ? & ?). repeat split; (lia || done).
  - repeat split; (lia || done).
Qed.

Lemma substr_lookup (doc : str) (a b : Z) (p : nat) :
  0 <= a -> a <= Z.of_nat p < b ->
  substr doc a b !! (p - Z.to_nat a)%nat = doc !! p.
Proof.
  intros Ha Hp. unfold substr. rewrite lookup_take_lt by lia.
  rewrite lookup_drop. f_equal. lia.
Qed.

Lemma tiles_covered max_size doc pos cs :
  tiles max_size doc pos cs ->
  forall (p : nat) ch,
    pos <= Z.of_nat p -> doc !! p = Some ch -> isspace ch = false ->
    covered cs (Z.of_nat p).
Proof.
  induction 1 as [pos Hend|pos e cs ? ? ? Hb ? IH|pos e cs ? ? ? ? ? IH];
    intros p ch Hp Hch Hns.
  - apply lookup_lt_Some in Hch. unfold len in Hend. lia.
  - destruct (Z.lt_ge_cases (Z.of_nat p) e) as [Hlt|Hge].
    + exfalso. rewrite <- (substr_lookup doc pos e) in Hch by lia.
      apply list_elem_of_lookup_2 in Hch. unfold blank in Hb.
      rewrite Forall_forall in Hb. apply Hb in Hch. congruence.
    + by apply (IH p ch).
  - destruct (Z.lt_ge_cases (Z.of_nat p) e) as [Hlt|Hge].
    + eexists. split; [left|]. simpl. lia.
    + destruct (IH p ch) as (c & Hc & Hr); [lia | done | done |].
      exists c. split; [by right | done].
Qed.

Lemma ascending_lookup lo cs :
  ascending lo cs ->
  forall (i : nat) c d, cs !! i = Some c -> cs !! S i = Some d ->
    end_char c <= start_char d.
Proof.
  revert lo. induction cs as [|x cs IH]; intros lo H i c d Hc Hd; [done|].
  destruct H as (_ & _ & H). destruct i as [|i]; simpl in *.
  - destruct cs as [|y cs]; [done|]. simpl in *. destruct H. congruence.
  - by apply (IH _ H i).
Qed.

Lemma tiles_nonempty max_size doc cs :
  tiles max_size doc 0 cs -> ~ blank doc -> cs <> [].
Proof.
  intros Ht Hnb ->. apply Hnb. unfold blank. rewrite Forall_forall.
  intros ch Hch. apply list_elem_of_lookup_1 in Hch. destruct Hch as [p Hp].
  destruct (isspace ch) eqn:E; [done|].
  destruct (tiles_covered _ _ _ _ Ht p ch) as (c & Hc & _); [lia | done | done |].
  by apply not_elem_of_nil in Hc.
Qed.

(** More fuel never changes the answer of the loop. *)
Lemma loop_fuel_mono max_size cut fuel : forall fuel' doc pos acc r,
  (fuel <= fuel')%nat ->
  loop max_size cut fuel doc pos acc = Some r ->
  loop max_size cut fuel' doc pos acc = Some r.
Proof.
  induction fuel as [|fuel IH]; intros fuel' doc pos acc r Hle H; [done|].
  destruct fuel' as [|fuel']; [lia|]. cbn [loop] in *.
  destruct (pos <? len doc); [|done].
  destruct (len (slice_from doc pos) <=? max_size); [done|].
  destruct (cut _ _); [|done]. apply IH; [lia | done].
Qed.

(** ** The chunker's claims *)
(** C1. For every document, both chunkers return, and every chunk they
    return spans at most [MAX_CHUNK_SIZE] characters before trimming
    ([end_char - start_char <= MAX_CHUNK_SIZE]) and carries a non-empty
    trimmed [text], the trimmed slice [text[start_char:end_char]]. *)
Theorem chunk_text_bounded_nonempty (doc : str) :
  (exists chunks, LongInput.chunk_text doc = Some chunks /\
     Forall (fun c => end_char c - start_char c <= LongInput.MAX_CHUNK_SIZE
                      /\ text c = strip (substr doc (start_char c) (end_char c))
                      /\ text c <> []) chunks) /\
  (exists chunks, Compressed.chunk_text doc = Some chunks /\
     Forall (fun c => end_char c - start_char c <= Compressed.MAX_CHUNK_SIZE
                      /\ text c = strip (substr doc (start_char c) (end_char c))
                      /\ text c <> []) chunks).
Proof.
  split.
  - destruct (LongInput_chunk_text_tiles doc) as (chunks & Hc & Ht).
    exists chunks. split; [done|].
    eapply Forall_impl; [by apply (tiles_chunk_ok _ _ 0 _ ltac:(lia) Ht)|].
    intros c (? & ? & ? & ? & ? & ?). done.
  - destruct (Compressed_chunk_text_tiles doc) as (chunks & Hc & Ht).
    exists chunks. split; [done|].
    eapply Forall_impl; [by apply (tiles_chunk_ok _ _ 0 _ ltac:(lia) Ht)|].
    intros c (? & ? & ? & ? & ? & ?). done.
Qed.

Lemma tiles_ascending_cover max_size doc cs :
  tiles max_size doc 0 cs -> ascending_cover doc cs.
Proof.
  intros Ht. repeat split.
  - eapply Forall_impl; [by apply (tiles_chunk_ok _ _ 0 _ ltac:(lia) Ht)|].
    intros c (? & ? & ? & _). done.
  - apply (ascending_lookup 0). by eapply tiles_ascending.
  - intros p ch Hp Hns. eapply tiles_covered; [done | lia | done | done].
Qed.

(** C4, counterexample.  The only chunk of [doc_trailing_space] ends at
    1900, one short of the end of the document: the blank rest is
    dropped. *)
Lemma chunk_text_trailing_space_gap :
  exists c,
    LongInput.chunk_text doc_trailing_space = Some [c] /\
    Compressed.chunk_text doc_trailing_space = Some [c] /\
    start_char c = 0 /\ end_char c = 1900 /\ len doc_trailing_space = 1901 /\
    ~ contiguous_cover (len doc_trailing_space) [c].
Proof.
  exists (mkTextChunk (replicate 1899 97%N ++ of_string ".") 0 1900).
  split; [by vm_compute|]. split; [by vm_compute|].
  split; [done|]. split; [done|]. split; [by vm_compute|].
  intros (_ & _ & H). specialize (H _ eq_refl). vm_compute in H. done.
Qed.

(** C4, amended.  For every document, both chunkers return chunks whose
    ranges lie inside the document, in ascending order and without
    overlap (each chunk starts at or after the end of the previous one),
    and every character of the document outside all ranges is
    whitespace. *)
Theorem chunk_text_ascending_cover (doc : str) :
  (exists chunks, LongInput.chunk_text doc = Some chunks
                  /\ ascending_cover doc chunks) /\
  (exists chunks, Compressed.chunk_text doc = Some chunks
                  /\ ascending_cover doc chunks).
Proof.
  split.
  - destruct (LongInput_chunk_text_tiles doc) as (chunks & Hc & Ht).
    exists chunks. split; [done | by eapply tiles_ascending_cover].
  - destruct (Compressed_chunk_text_tiles doc) as (chunks & Hc & Ht).
    exists chunks. split; [done | by eapply tiles_ascending_cover].
Qed.

(** C6, counterexample.  A document made of one space is not empty, yet
    both chunkers return no chunk for it. *)
Lemma chunk_text_blank_document :
  of_string " " <> [] /\
  LongInput.chunk_text (of_string " ") = Some [] /\
  Compressed.chunk_text (of_string " ") = Some [].
Proof. repeat split; by vm_compute. Qed.

(** C6, amended.  For every document that holds at least one character
    that is not whitespace, both chunkers return at least one chunk. *)
Theorem chunk_text_some_chunk (doc : str) :
  ~ blank doc ->
  (exists chunks, LongInput.chunk_text doc = Some chunks
                  /\ (1 <= length chunks)%nat) /\
  (exists chunks, Compressed.chunk_text doc = Some chunks
                  /\ (1 <= length chunks)%nat).
Proof.
  intros Hnb. split.
  - destruct (LongInput_chunk_text_tiles doc) as (chunks & Hc & Ht).
    exists chunks. split; [done|].
    pose proof (tiles_nonempty _ _ _ Ht Hnb). destruct chunks; [done | simpl; lia].
  - destruct (Compressed_chunk_text_tiles doc) as (chunks & Hc & Ht).
    exists chunks. split; [done|].
    pose proof (tiles_nonempty _ _ _ Ht Hnb). destruct chunks; [done | simpl; lia].
Qed.

Lemma chunk_text_some_chunk_witness :
  ~ blank (of_string "Hello world.") /\
  (exists chunks, LongInput.chunk_text (of_string "Hello world.") = Some chunks
                  /\ (1 <= length chunks)%nat) /\
  (exists chunks, Compressed.chunk_text (of_string "Hello world.") = Some chunks
                  /\ (1 <= length chunks)%nat).
Proof.
  assert (H : ~ blank (of_string "Hello world.")).
  { intros H. apply Forall_inv in H. vm_compute in H. discriminate. }
  split; [exact H | exact (chunk_text_some_chunk _ H)].
Defined.

(** C10. Every cut offset is at least 1, whichever branch of the boundary
    search produces it, so the cursor moves forward in every iteration and
    both chunkers return for every document: the fuel [len(text) + 1] is
    enough, and more fuel gives the same chunks. *)
Theorem chunk_text_terminates (doc : str) :
  (forall search_text, 1 <= LongInput.sentence_cut search_text) /\
  (forall remaining_text chunk_index,
     exists chunk_end,
       Compressed.find_break_point remaining_text Compressed.MIN_CHUNK_SIZE
         Compressed.MAX_CHUNK_SIZE chunk_index = Some chunk_end
       /\ 1 <= chunk_end) /\
  (exists chunks,
     LongInput.chunk_text doc = Some chunks /\
     forall fuel, (length doc < fuel)%nat ->
       LongInput.chunk_loop fuel doc 0 [] = Some chunks) /\
  (exists chunks,
     Compressed.chunk_text doc = Some chunks /\
     forall fuel, (length doc < fuel)%nat ->
       Compressed.chunk_loop fuel doc 0 [] = Some chunks).
Proof.
  split; [|split; [|split]].
  - intros w. pose proof (sentence_cut_range w). lia.
  - intros rem i.
    destruct (find_break_point_range rem Compressed.MIN_CHUNK_SIZE
                Compressed.MAX_CHUNK_SIZE i) as (z & Hz & Hr); [done | done |].
    exists z. split; [done | lia].
  - destruct (LongInput_chunk_text_tiles doc) as (chunks & Hc & _).
    exists chunks. split; [done|]. intros fuel Hf.
    unfold LongInput.chunk_text in Hc. rewrite LongInput_chunk_loop_eq in *.
    eapply loop_fuel_mono; [|done]. lia.
  - destruct (Compressed_chunk_text_tiles doc) as (chunks & Hc & _).
    exists chunks. split; [done|]. intros fuel Hf.
    unfold Compressed.chunk_text in Hc. rewrite Compressed_chunk_loop_eq in *.
    eapply loop_fuel_mono; [|done]. lia.
Qed.

(** ** The sentence-first policy *)

Lemma filter_first {A} (P : A -> Prop) `{forall x, Decision (P x)}
    (pre : list A) (m : A) (post : list A) :
  Forall (fun x => ~ P x) pre -> P m ->
  exists rest, filter P (pre ++ m :: post) = m :: rest.
Proof.
  intros Hpre Hm. induction Hpre as [|x pre Hx _ IH]; simpl.
  - rewrite filter_cons_True by done. by eexists.
  - by rewrite filter_cons_False.
Qed.

Lemma filter_none {A} (P : A -> Prop) `{forall x, Decision (P x)} (l : list A) :
  Forall (fun x => ~ P x) l -> filter P l = [].
Proof.
  induction 1 as [|x l Hx _ IH]; [done|]. by rewrite filter_cons_False.
Qed.

(** C5, counterexample.  In [window_leading_space] there is no sentence
    terminator and the last space is at index 0, yet the cut is at
    [MAX_CHUNK_SIZE] and not one past that space. *)
Lemma sentence_cut_leading_space :
  finditer sentence_end_pattern window_leading_space = [] /\
  window_leading_space !! 0%nat = Some 32%N /\
  (32%N ∉ drop 1 window_leading_space) /\
  LongInput.sentence_cut window_leading_space = 1900 /\
  ~ sentence_first_as_stated window_leading_space
      (LongInput.sentence_cut window_leading_space).
Proof.
  assert (Hm : finditer sentence_end_pattern window_leading_space = [])
    by (by vm_compute).
  assert (Hc : LongInput.sentence_cut window_leading_space = 1900)
    by (by vm_compute).
  assert (Hn : 32%N ∉ drop 1 window_leading_space).
  { change (drop 1 window_leading_space) with (replicate 1899 97%N).
    intros [? _]%elem_of_replicate. discriminate. }
  split; [exact Hm|]. split; [reflexivity|]. split; [exact Hn|].
  split; [exact Hc|].
  intros (_ & _ & H & _). specialize (H 0%nat Hm eq_refl).
  rewrite Hc in H. assert (1900 = Z.of_nat 0 + 1); [|done].
  apply H. intros [|j'] Hj Hl; [lia|]. simpl in Hl.
  apply list_elem_of_lookup_2 in Hl. done.
Qed.

(** C5, amended.  For every window, the cut offset of the sentence-first
    policy is the end of the first sentence-terminator match that ends at
    or after [MIN_CHUNK_SIZE]; if no match ends that far, the end of the
    last match; if there is no match at all, one past the last space
    provided that space is not the first character of the window; and
    [MAX_CHUNK_SIZE] when no space occurs after the first character. *)
Theorem sentence_cut_policy (w : str) :
  let ms := finditer sentence_end_pattern w in
  (forall pre m post, ms = pre ++ m :: post ->
     Forall (fun x => m_end x < LongInput.MIN_CHUNK_SIZE) pre ->
     LongInput.MIN_CHUNK_SIZE <= m_end m ->
     LongInput.sentence_cut w = m_end m) /\
  (forall m, Forall (fun x => m_end x < LongInput.MIN_CHUNK_SIZE) ms ->
     last ms = Some m -> LongInput.sentence_cut w = m_end m) /\
  (forall j : nat, ms = [] -> (0 < j)%nat -> w !! j = Some 32%N ->
     (forall j' : nat, (j < j')%nat -> w !! j' <> Some 32%N) ->
     LongInput.sentence_cut w = Z.of_nat j + 1) /\
  (ms = [] -> (forall j : nat, (0 < j)%nat -> w !! j <> Some 32%N) ->
     LongInput.sentence_cut w = LongInput.MAX_CHUNK_SIZE).
Proof.
  intros ms. unfold LongInput.sentence_cut. fold ms.
  assert (Hlt : forall l : list Match,
            Forall (fun x => m_end x < LongInput.MIN_CHUNK_SIZE) l ->
            Forall (fun x => ~ LongInput.MIN_CHUNK_SIZE <= m_end x) l).
  { intros l Hl. eapply Forall_impl; [exact Hl|]. intros x. simpl. lia. }
  change (of_string " ") with [32%N].
  split; [|split; [|split]].
  - intros pre m post -> Hpre Hm.
    destruct (filter_first (fun x => LongInput.MIN_CHUNK_SIZE <= m_end x)
                pre m post (Hlt _ Hpre) Hm) as (rest & ->). done.
  - intros m Hall Hlast. rewrite filter_none by by apply Hlt. by rewrite Hlast.
  - intros j -> Hj Hsp Hlast. simpl.
    destruct (rfind_char 32%N w) as [[_ Hn]|(j0 & -> & Hj0 & Hl0)].
    + apply list_elem_of_lookup_2 in Hsp. done.
    + assert (j0 = j).
      { destruct (Nat.lt_trichotomy j0 j) as [?|[?|?]]; [|done|].
        - by apply Hl0 in Hsp.
        - by apply Hlast in Hj0. }
      subst j0. destruct (Z.ltb_spec 0 (Z.of_nat j)); [done | lia].
  - intros -> Hnone. simpl.
    destruct (rfind_char 32%N w) as [[-> _]|(j0 & -> & Hj0 & _)]; [done|].
    destruct j0 as [|j0]; [done|]. by apply Hnone in Hj0; [|lia].
Qed.

Lemma sentence_cut_policy_witness :
  LongInput.sentence_cut (of_string "ab cd") = 3.
Proof.
  apply (proj1 (proj2 (proj2 (sentence_cut_policy (of_string "ab cd")))) 2%nat).
  - reflexivity.
  - lia.
  - reflexivity.
  - intros [|[|[|[|[|j']]]]] Hj; try lia; by vm_compute.
Defined.

(** ** Reassembly and the splice report *)

Lemma calculate_duration_ok (buffer : bytes) :
  LongInput.calculate_duration (LongInput.extract_raw_audio buffer)
  = Ok (duration_of buffer).
Proof. reflexivity. Qed.

Lemma combine_loop_spec format_time chunks : forall rest n sps t raws,
  (1 <= n)%nat -> (n + length rest <= length chunks)%nat ->
  exists new,
    LongInput.combine_loop format_time (enumerate_from n rest) chunks sps t raws
    = Ok (sps ++ new, elapsed t rest,
          raws ++ map LongInput.extract_raw_audio rest) /\
    length new = length rest /\
    forall (k : nat) sp, new !! k = Some sp ->
      LongInput.splice_index sp = (n + k)%nat /\
      LongInput.timestamp sp = elapsed t (take k rest).
Proof.
  induction rest as [|b rest IH]; intros n sps t raws Hn Hlen.
  - exists []. simpl. rewrite !app_nil_r. done.
  - simpl in Hlen. cbn [enumerate_from LongInput.combine_loop].
    rewrite calculate_duration_ok. cbn [mbind result_bind].
    destruct (Nat.ltb_spec 0 n) as [_|?]; [|lia].
    unfold getitem.
    destruct (chunks !! n) as [c|] eqn:Ec.
    2:{ apply lookup_ge_None in Ec. lia. }
    cbn [mbind result_bind].
    edestruct (IH (S n)) as (new & -> & Hl & Hsp); [lia | lia |].
    eexists (_ :: new). split; [|split].
    + simpl. by rewrite <- !app_assoc.
    + simpl. by rewrite Hl.
    + intros [|k] sp Hk; simpl in Hk.
      * inversion Hk; subst. simpl. split; [lia | done].
      * apply Hsp in Hk. destruct Hk as [-> ->]. split; [lia | done].
Qed.

Lemma combine_audio_buffers_spec format_time (audio_buffers : list bytes) chunks :
  length chunks = length audio_buffers ->
  exists splice_points,
    LongInput.combine_audio_buffers format_time audio_buffers chunks
    = Ok (concat (map LongInput.extract_raw_audio audio_buffers),
          splice_points, elapsed 0 audio_buffers) /\
    length splice_points = (length audio_buffers - 1)%nat /\
    forall (k : nat) sp, splice_points !! k = Some sp ->
      LongInput.splice_index sp = S k /\
      LongInput.timestamp sp = elapsed 0 (take (S k) audio_buffers).
Proof.
  intros Hlen. unfold LongInput.combine_audio_buffers, enumerate.
  destruct audio_buffers as [|b rest].
  - exists []. done.
  - cbn [enumerate_from LongInput.combine_loop].
    rewrite calculate_duration_ok. cbn [mbind result_bind Nat.ltb Nat.leb].
    simpl in Hlen.
    edestruct (combine_loop_spec format_time chunks rest 1)
      as (new & -> & Hl & Hsp); [lia | lia |].
    exists new. cbn [mbind result_bind]. split; [done|]. split.
    + simpl. lia.
    + intros k sp Hk. apply Hsp in Hk. done.
Qed.

(** C2. For every list of audio buffers and a chunk list of the same
    length, [combine_audio_buffers] returns [N - 1] splice points (none
    for [N <= 1], and none with index 0): the [k]-th one has index [k + 1]
    and its timestamp is the sum of the durations (raw byte length divided
    by [bytes_per_second]) of the buffers before that index, accumulated
    in order from [0.0]; the total duration is the same sum over all
    buffers. *)
Theorem combine_audio_buffers_splices format_time
    (audio_buffers : list bytes) (chunks : list TextChunk) :
  length chunks = length audio_buffers ->
  exists combined_audio splice_points total_duration,
    LongInput.combine_audio_buffers format_time audio_buffers chunks
    = Ok (combined_audio, splice_points, total_duration) /\
    length splice_points = Nat.max (length audio_buffers - 1) 0 /\
    (forall sp, sp ∈ splice_points -> LongInput.splice_index sp <> 0%nat) /\
    (forall (k : nat) sp, splice_points !! k = Some sp ->
       LongInput.splice_index sp = S k /\
       LongInput.timestamp sp
       = elapsed 0 (take (LongInput.splice_index sp) audio_buffers)) /\
    total_duration = elapsed 0 audio_buffers.
Proof.
  intros Hlen.
  destruct (combine_audio_buffers_spec format_time audio_buffers chunks Hlen)
    as (sps & -> & Hl & Hsp).
  eexists _, sps, _. split; [done|]. split; [lia|]. split; [|split; [|done]].
  - intros sp [k Hk]%list_elem_of_lookup_1. apply Hsp in Hk. lia.
  - intros k sp Hk. apply Hsp in Hk. destruct Hk as [Hi Ht].
    rewrite Hi. done.
Qed.

Lemma combine_audio_buffers_splices_witness :
  exists combined_audio splice_points total_duration,
    LongInput.combine_audio_buffers (fun _ => EmptyString)
      [[Byte.x01; Byte.x02]; [Byte.x03; Byte.x04]] [chunk_a; chunk_b]
    = Ok (combined_audio, splice_points, total_duration) /\
    length splice_points = 1%nat.
Proof.
  destruct (combine_audio_buffers_splices (fun _ => EmptyString)
              [[Byte.x01; Byte.x02]; [Byte.x03; Byte.x04]] [chunk_a; chunk_b]
              eq_refl)
    as (combined & sps & total & H & Hl & _).
  exists combined, sps, total. split; [exact H | exact Hl].
Defined.

(** C9, counterexample.  A buffer of one byte is shorter than a sample
    frame of two bytes, and the empty buffer is shorter still; both are
    combined without an error. *)
Lemma combine_audio_buffers_short_buffer :
  LongInput.BITS_PER_SAMPLE / 8 * LongInput.CHANNELS = 2 /\
  LongInput.combine_audio_buffers (fun _ => EmptyString) [[Byte.x07]] [chunk_a]
  = Ok ([Byte.x07], [], (1 / 96000)%float) /\
  LongInput.combine_audio_buffers (fun _ => EmptyString) [[]] [chunk_a]
  = Ok ([], [], 0%float).
Proof. repeat split; by vm_compute. Qed.

(** C9, amended.  The reassembly step validates nothing: for buffers of
    any length, also shorter than one sample frame, and a chunk list of
    the same length, [combine_audio_buffers] returns the concatenation of
    the raw audio; and the duration computation never fails, its
    [bytes_per_second] being the constant 96000. *)
Theorem combine_audio_buffers_never_rejects format_time
    (audio_buffers : list bytes) (chunks : list TextChunk) :
  length chunks = length audio_buffers ->
  LongInput.bytes_per_second = 96000 /\
  (forall raw_audio, exists duration,
     LongInput.calculate_duration raw_audio = Ok duration) /\
  exists splice_points total_duration,
    LongInput.combine_audio_buffers format_time audio_buffers chunks
    = Ok (concat (map LongInput.extract_raw_audio audio_buffers),
          splice_points, total_duration).
Proof.
  intros Hlen. split; [reflexivity|]. split.
  - intros raw. eexists. reflexivity.
  - destruct (combine_audio_buffers_spec format_time audio_buffers chunks Hlen)
      as (sps & -> & _). by eexists _, _.
Qed.

Lemma combine_audio_buffers_never_rejects_witness :
  exists splice_points total_duration,
    LongInput.combine_audio_buffers (fun _ => EmptyString)
      [[Byte.x07]; []] [chunk_a; chunk_b]
    = Ok ([Byte.x07], splice_points, total_duration).
Proof.
  exact (proj2 (proj2 (combine_audio_buffers_never_rejects
                         (fun _ => EmptyString) [[Byte.x07]; []]
                         [chunk_a; chunk_b] eq_refl))).
Defined.

(** ** The dispatcher *)

Lemma enumerate_from_elem {A} (l : list A) : forall n i x,
  (i, x) ∈ enumerate_from n l <-> (n <= i)%nat /\ l !! (i - n)%nat = Some x.
Proof.
  induction l as [|y l IH]; intros n i x; simpl.
  - split; [by intros ?%not_elem_of_nil | by intros [_ ?]].
  - rewrite elem_of_cons, IH. split.
    + intros [[= -> ->]|[Hle Hl]].
      * split; [lia|]. by rewrite Nat.sub_diag.
      * split; [lia|]. by replace (i - n)%nat with (S (i - S n)) by lia.
    + intros [Hle Hl]. destruct (decide (i = n)) as [->|Hne].
      * left. rewrite Nat.sub_diag in Hl. simpl in Hl. congruence.
      * right. split; [lia|].
        by replace (i - n)%nat with (S (i - S n)) in Hl by lia.
Qed.

Lemma futures_of_elem outcome chunks (f : future) :
  f ∈ futures_of outcome chunks <->
  exists i chunk, chunks !! i = Some chunk /\
    f = (audio_data ← outcome i chunk; Ok (i, audio_data)).
Proof.
  unfold futures_of, enumerate. rewrite list_elem_of_In, in_map_iff. split.
  - intros ([i c] & <- & Hin). apply list_elem_of_In, enumerate_from_elem in Hin.
    destruct Hin as [_ Hl]. rewrite Nat.sub_0_r in Hl. by exists i, c.
  - intros (i & c & Hl & ->). exists (i, c). split; [done|].
    apply list_elem_of_In, enumerate_from_elem. split; [lia|].
    by rewrite Nat.sub_0_r.
Qed.

(** Storing by index: after the loop, a slot holds the audio of a future
    that named it, or what it held before when no future named it. *)
Lemma collect_slots (completed : list future) : forall audio_buffers,
  Forall (fun f => exists i a, f = Ok (i, a)
                               /\ (i < length audio_buffers)%nat) completed ->
  exists bufs,
    collect completed audio_buffers = Ok bufs /\
    length bufs = length audio_buffers /\
    forall i : nat,
      (exists a, Ok (i, a) ∈ completed /\ bufs !! i = Some (Some a)) \/
      ((forall a, Ok (i, a) ∉ completed) /\ bufs !! i = audio_buffers !! i).
Proof.
  induction completed as [|f rest IH]; intros bufs0 Hall.
  - exists bufs0. split; [done|]. split; [done|]. intros i. right.
    split; [|done]. intros a. apply not_elem_of_nil.
  - apply Forall_cons in Hall. destruct Hall as [(j & b & -> & Hj) Hrest].
    cbn [collect mbind result_bind]. unfold setitem.
    destruct (Nat.ltb_spec j (length bufs0)) as [_|?]; [|lia].
    cbn [mbind result_bind].
    destruct (IH (<[j := Some b]> bufs0)) as (bufs & -> & Hlen & Hslot).
    { eapply Forall_impl; [exact Hrest|]. intros f (i & a & -> & Hi).
      exists i, a. by rewrite length_insert. }
    exists bufs. split; [done|]. rewrite length_insert in Hlen.
    split; [done|]. intros i.
    destruct (Hslot i) as [(a & Ha & Hl)|[Hnone Hl]].
    + left. exists a. split; [by right | done].
    + destruct (decide (i = j)) as [->|Hne].
      * left. exists b. split; [by left|].
        by rewrite Hl, list_lookup_insert_eq.
      * right. split.
        -- intros a [[= ? ?]|Hin]%elem_of_cons; [done | by apply Hnone in Hin].
        -- by rewrite Hl, list_lookup_insert_ne.
Qed.

Lemma collect_raises (completed : list future) e : forall audio_buffers,
  Raise e ∈ completed ->
  exists e', collect completed audio_buffers = Raise e'.
Proof.
  induction completed as [|f rest IH]; intros bufs0 Hin.
  - by apply not_elem_of_nil in Hin.
  - cbn [collect]. destruct f as [[j b]|e0]; [|by eexists].
    apply elem_of_cons in Hin. destruct Hin as [?|Hin]; [done|].
    cbn [mbind result_bind]. destruct (setitem bufs0 j (Some b)); [|by eexists].
    cbn [mbind result_bind]. by apply IH.
Qed.

Lemma dispatch_aligned outcome chunks (completed : list future) :
  completed ≡ₚ futures_of outcome chunks ->
  (forall (i : nat) chunk, chunks !! i = Some chunk ->
     exists a, outcome i chunk = Ok a) ->
  exists bufs,
    collect completed (replicate (length chunks) None) = Ok bufs /\
    length bufs = length chunks /\
    forall (i : nat) chunk, chunks !! i = Some chunk ->
      exists a, outcome i chunk = Ok a /\ bufs !! i = Some (Some a).
Proof.
  intros Hperm Hok.
  assert (Hmem : forall (i : nat) a, Ok (i, a) ∈ completed <->
            exists chunk, chunks !! i = Some chunk /\ outcome i chunk = Ok a).
  { intros i a. rewrite Hperm, futures_of_elem. split.
    - intros (i' & c & Hc & Hf). destruct (Hok i' c Hc) as [a' Ha'].
      rewrite Ha' in Hf. cbn in Hf. inversion Hf; subst. by exists c.
    - intros (c & Hc & Ha). exists i, c. split; [done|]. by rewrite Ha. }
  destruct (collect_slots completed (replicate (length chunks) None))
    as (bufs & Hc & Hlen & Hslot).
  { rewrite Hperm. apply Forall_forall. intros f Hf.
    apply futures_of_elem in Hf. destruct Hf as (i & c & Hc & ->).
    destruct (Hok i c Hc) as [a ->]. exists i, a. split; [done|].
    rewrite length_replicate. by apply lookup_lt_Some in Hc. }
  exists bufs. split; [done|]. rewrite length_replicate in Hlen.
  split; [done|]. intros i c Hi. destruct (Hok i c Hi) as [a Ha].
  exists a. split; [done|].
  destruct (Hslot i) as [(a' & Hin & Hl)|[Hnone _]].
  - apply Hmem in Hin. destruct Hin as (c' & Hc' & Ha'). congruence.
  - exfalso. apply (Hnone a). apply Hmem. by exists c.
Qed.

Lemma dispatch_order_irrelevant outcome chunks (completed completed' : list future) :
  completed ≡ₚ futures_of outcome chunks ->
  completed' ≡ₚ futures_of outcome chunks ->
  (forall (i : nat) chunk, chunks !! i = Some chunk ->
     exists a, outcome i chunk = Ok a) ->
  collect completed (replicate (length chunks) None)
  = collect completed' (replicate (length chunks) None).
Proof.
  intros Hperm Hperm' Hok.
  destruct (dispatch_aligned outcome chunks completed Hperm Hok)
    as (bufs & -> & Hlen & Hslot).
  destruct (dispatch_aligned outcome chunks completed' Hperm' Hok)
    as (bufs' & -> & Hlen' & Hslot').
  f_equal. apply list_eq. intros i.
  destruct (chunks !! i) as [c|] eqn:Ec.
  - destruct (Hslot i c Ec) as (a & Ha & ->).
    destruct (Hslot' i c Ec) as (a' & Ha' & ->). congruence.
  - apply lookup_ge_None in Ec.
    rewrite (proj2 (lookup_ge_None bufs i)) by lia.
    by rewrite (proj2 (lookup_ge_None bufs' i)) by lia.
Qed.

Lemma dispatch_fails outcome chunks (completed : list future) (i : nat) chunk e :
  completed ≡ₚ futures_of outcome chunks ->
  chunks !! i = Some chunk -> outcome i chunk = Raise e ->
  exists e', collect completed (replicate (length chunks) None) = Raise e'.
Proof.
  intros Hperm Hi He. apply (collect_raises completed e).
  rewrite Hperm. apply futures_of_elem. exists i, chunk.
  split; [done|]. by rewrite He.
Qed.

Lemma Compressed_futures service chunks config :
  map (Compressed.synthesize_chunk_wrapper service)
    (map (fun '(i, chunk) => (chunk, config, i, length chunks)) (enumerate chunks))
  = futures_of (fun i chunk =>
       fst (Compressed.synthesize_speech (service i) (text chunk) config new_world))
      chunks.
Proof.
  unfold futures_of. rewrite map_map. apply map_ext. by intros [i c].
Qed.

Lemma LongInput_futures service chunks :
  map (LongInput.synthesize_chunk_wrapper service)
    (map (fun '(i, chunk) => (chunk, i, length chunks)) (enumerate chunks))
  = futures_of (fun i chunk =>
       fst (LongInput.synthesize_speech (service i) (text chunk) new_world))
      chunks.
Proof.
  unfold futures_of. rewrite map_map. apply map_ext. by intros [i c].
Qed.

Lemma dispatch_returned outcome chunks (completed : list future) bufs :
  completed ≡ₚ futures_of outcome chunks ->
  collect completed (replicate (length chunks) None) = Ok bufs ->
  forall (i : nat) chunk, chunks !! i = Some chunk ->
    exists a, outcome i chunk = Ok a.
Proof.
  intros Hperm Hr i chunk Hi. destruct (outcome i chunk) as [a|e] eqn:E.
  - by exists a.
  - destruct (dispatch_fails outcome chunks completed i chunk e Hperm Hi E)
      as [e' He']. congruence.
Qed.

(** The pool of [synthesize_all_chunks] has two workers, so its
    constructor returns and the dispatcher is the collecting loop. *)
Lemma Compressed_dispatch service as_completed chunks config :
  Compressed.synthesize_all_chunks service as_completed chunks config
  = collect
      (as_completed
         (futures_of (fun i chunk =>
            fst (Compressed.synthesize_speech (service i) (text chunk) config
                   new_world))
            chunks))
      (replicate (length chunks) None).
Proof.
  unfold Compressed.synthesize_all_chunks. by rewrite Compressed_futures.
Qed.

(** The pool of [main] has one worker per chunk: with a chunk, its
    constructor returns and the dispatch is the collecting loop. *)
Lemma LongInput_dispatch service as_completed chunks :
  chunks <> [] ->
  LongInput.synthesize_in_parallel service as_completed chunks
  = collect
      (as_completed
         (futures_of (fun i chunk =>
            fst (LongInput.synthesize_speech (service i) (text chunk) new_world))
            chunks))
      (replicate (length chunks) None).
Proof.
  intros Hne. unfold LongInput.synthesize_in_parallel.
  rewrite LongInput_futures. unfold ThreadPoolExecutor, len.
  destruct chunks as [|c chunks]; [done|].
  destruct (Z.leb_spec (Z.of_nat (length (c :: chunks))) 0) as [Hle|_];
    [cbn [length] in Hle; lia | done].
Qed.

(** Without a chunk the pool of [main] has no worker, and its constructor
    raises. *)
Lemma LongInput_dispatch_no_chunk service as_completed :
  LongInput.synthesize_in_parallel service as_completed [] = Raise ValueError.
Proof. reflexivity. Qed.

Lemma LongInput_dispatch_returned service as_completed chunks audio_buffers :
  LongInput.synthesize_in_parallel service as_completed chunks
  = Ok audio_buffers ->
  chunks <> [].
Proof. intros Hr ->. by rewrite LongInput_dispatch_no_chunk in Hr. Qed.

(** A call whose first request is answered with audio returns it. *)
Lemma Compressed_first_answer server text config audio_data :
  server text 0%nat = Audio audio_data ->
  fst (Compressed.synthesize_speech server text config new_world)
  = Ok audio_data.
Proof.
  intros Hs. unfold Compressed.synthesize_speech, Compressed.MAX_RETRIES.
  cbn [seq Compressed.retry_loop post requests_sent new_world].
  by rewrite Hs.
Qed.

Lemma LongInput_first_answer server text audio_data :
  server text 0%nat = Audio audio_data ->
  fst (LongInput.synthesize_speech server text new_world) = Ok audio_data.
Proof.
  intros Hs. unfold LongInput.synthesize_speech.
  cbn [post requests_sent new_world]. by rewrite Hs.
Qed.

(** Slots that hold, index by index, the audio of the chunks. *)
Lemma slots_of_chunks (voice : str -> bytes) (chunks : list TextChunk)
    (audio_buffers : list (option bytes)) :
  length audio_buffers = length chunks ->
  (forall (i : nat) chunk, chunks !! i = Some chunk ->
     audio_buffers !! i = Some (Some (voice (text chunk)))) ->
  audio_buffers = map (fun chunk => Some (voice (text chunk))) chunks.
Proof.
  intros Hlen Hslot. apply list_eq. intros i. rewrite list_lookup_fmap.
  destruct (chunks !! i) as [c|] eqn:Ec.
  - by rewrite (Hslot i c Ec).
  - apply lookup_ge_None in Ec. apply lookup_ge_None. lia.
Qed.

(** C3. Whatever the order [as_completed] in which the synthesis calls
    complete, the sequence the dispatcher returns has one slot per chunk
    and slot [i] holds the audio that the call for chunk [i] obtained for
    the text of chunk [i]; and when every call succeeds the dispatcher
    does return, with the result it gives when the calls complete in chunk
    order.  This holds for the pooled dispatcher [synthesize_all_chunks]
    and, when there is a chunk, for the one-worker-per-chunk dispatch of
    [main].  In particular, when the service answers the request for a
    chunk with the audio [voice] of the text it was sent, the slots are
    the audio of the chunks' texts, in chunk order. *)
Theorem dispatch_index_aligned (service : nat -> str -> nat -> response)
    (as_completed : list future -> list future)
    (chunks : list TextChunk) (config : SynthesisConfig) :
  (forall l, as_completed l ≡ₚ l) ->
  (forall audio_buffers,
     Compressed.synthesize_all_chunks service as_completed chunks config
     = Ok audio_buffers ->
     length audio_buffers = length chunks /\
     forall (i : nat) chunk, chunks !! i = Some chunk ->
       exists a, fst (Compressed.synthesize_speech (service i) (text chunk)
                        config new_world) = Ok a
                 /\ audio_buffers !! i = Some (Some a)) /\
  ((forall (i : nat) chunk, chunks !! i = Some chunk ->
      exists a, fst (Compressed.synthesize_speech (service i) (text chunk)
                       config new_world) = Ok a) ->
   exists audio_buffers,
     Compressed.synthesize_all_chunks service as_completed chunks config
     = Ok audio_buffers /\
     Compressed.synthesize_all_chunks service (fun l => l) chunks config
     = Ok audio_buffers) /\
  (forall audio_buffers,
     LongInput.synthesize_in_parallel service as_completed chunks
     = Ok audio_buffers ->
     length audio_buffers = length chunks /\
     forall (i : nat) chunk, chunks !! i = Some chunk ->
       exists a, fst (LongInput.synthesize_speech (service i) (text chunk)
                        new_world) = Ok a
                 /\ audio_buffers !! i = Some (Some a)) /\
  (chunks <> [] ->
   (forall (i : nat) chunk, chunks !! i = Some chunk ->
      exists a, fst (LongInput.synthesize_speech (service i) (text chunk)
                       new_world) = Ok a) ->
   exists audio_buffers,
     LongInput.synthesize_in_parallel service as_completed chunks
     = Ok audio_buffers /\
     LongInput.synthesize_in_parallel service (fun l => l) chunks
     = Ok audio_buffers) /\
  (forall voice : str -> bytes,
     (forall (i : nat) chunk, chunks !! i = Some chunk ->
        service i (text chunk) 0%nat = Audio (voice (text chunk))) ->
     Compressed.synthesize_all_chunks service as_completed chunks config
     = Ok (map (fun chunk => Some (voice (text chunk))) chunks) /\
     (chunks <> [] ->
      LongInput.synthesize_in_parallel service as_completed chunks
      = Ok (map (fun chunk => Some (voice (text chunk))) chunks))).
Proof.
  intros Hperm.
  assert (Hc1 : forall audio_buffers,
     Compressed.synthesize_all_chunks service as_completed chunks config
     = Ok audio_buffers ->
     length audio_buffers = length chunks /\
     forall (i : nat) chunk, chunks !! i = Some chunk ->
       exists a, fst (Compressed.synthesize_speech (service i) (text chunk)
                        config new_world) = Ok a
                 /\ audio_buffers !! i = Some (Some a)).
  { intros bufs Hr. rewrite Compressed_dispatch in Hr.
    pose proof (dispatch_returned _ chunks _ bufs (Hperm _) Hr) as Hok.
    destruct (dispatch_aligned _ chunks _ (Hperm _) Hok)
      as (bufs' & Hr' & Hlen & Hslot).
    assert (bufs' = bufs) as -> by congruence. done. }
  assert (Hc2 : (forall (i : nat) chunk, chunks !! i = Some chunk ->
      exists a, fst (Compressed.synthesize_speech (service i) (text chunk)
                       config new_world) = Ok a) ->
   exists audio_buffers,
     Compressed.synthesize_all_chunks service as_completed chunks config
     = Ok audio_buffers /\
     Compressed.synthesize_all_chunks service (fun l => l) chunks config
     = Ok audio_buffers).
  { intros Hok. rewrite !Compressed_dispatch.
    rewrite <- (dispatch_order_irrelevant _ chunks (as_completed _) _
                  (Hperm _) (reflexivity _) Hok).
    destruct (dispatch_aligned _ chunks _ (Hperm _) Hok) as (bufs & Hr & _).
    by exists bufs. }
  assert (Hl1 : forall audio_buffers,
     LongInput.synthesize_in_parallel service as_completed chunks
     = Ok audio_buffers ->
     length audio_buffers = length chunks /\
     forall (i : nat) chunk, chunks !! i = Some chunk ->
       exists a, fst (LongInput.synthesize_speech (service i) (text chunk)
                        new_world) = Ok a
                 /\ audio_buffers !! i = Some (Some a)).
  { intros bufs Hr.
    pose proof (LongInput_dispatch_returned _ _ _ _ Hr) as Hne.
    rewrite LongInput_dispatch in Hr by done.
    pose proof (dispatch_returned _ chunks _ bufs (Hperm _) Hr) as Hok.
    destruct (dispatch_aligned _ chunks _ (Hperm _) Hok)
      as (bufs' & Hr' & Hlen & Hslot).
    assert (bufs' = bufs) as -> by congruence. done. }
  assert (Hl2 : chunks <> [] ->
   (forall (i : nat) chunk, chunks !! i = Some chunk ->
      exists a, fst (LongInput.synthesize_speech (service i) (text chunk)
                       new_world) = Ok a) ->
   exists audio_buffers,
     LongInput.synthesize_in_parallel service as_completed chunks
     = Ok audio_buffers /\
     LongInput.synthesize_in_parallel service (fun l => l) chunks
     = Ok audio_buffers).
  { intros Hne Hok. rewrite !LongInput_dispatch by done.
    rewrite <- (dispatch_order_irrelevant _ chunks (as_completed _) _
                  (Hperm _) (reflexivity _) Hok).
    destruct (dispatch_aligned _ chunks _ (Hperm _) Hok) as (bufs & Hr & _).
    by exists bufs. }
  split; [exact Hc1|]. split; [exact Hc2|].
  split; [exact Hl1|]. split; [exact Hl2|].
  intros voice Hvoice. split.
  - destruct Hc2 as (bufs & Hr & _).
    { intros i chunk Hi. eexists.
      by apply Compressed_first_answer, Hvoice. }
    rewrite Hr. f_equal. destruct (Hc1 bufs Hr) as [Hlen Hslot].
    apply slots_of_chunks; [done|]. intros i chunk Hi.
    destruct (Hslot i chunk Hi) as (a & Ha & ->).
    rewrite (Compressed_first_answer _ _ _ _ (Hvoice i chunk Hi)) in Ha.
    congruence.
  - intros Hne. destruct (Hl2 Hne) as (bufs & Hr & _).
    { intros i chunk Hi. eexists.
      by apply LongInput_first_answer, Hvoice. }
    rewrite Hr. f_equal. destruct (Hl1 bufs Hr) as [Hlen Hslot].
    apply slots_of_chunks; [done|]. intros i chunk Hi.
    destruct (Hslot i chunk Hi) as (a & Ha & ->).
    rewrite (LongInput_first_answer _ _ _ (Hvoice i chunk Hi)) in Ha.
    congruence.
Qed.

Lemma dispatch_index_aligned_witness :
  Compressed.synthesize_all_chunks service_echo reverse [chunk_a; chunk_b]
    demo_config
  = Ok [Some (map byte_of_char (of_string "One."));
        Some (map byte_of_char (of_string "Two."))] /\
  LongInput.synthesize_in_parallel service_echo reverse [chunk_a; chunk_b]
  = Ok [Some (map byte_of_char (of_string "One."));
        Some (map byte_of_char (of_string "Two."))].
Proof.
  destruct (dispatch_index_aligned service_echo reverse [chunk_a; chunk_b]
              demo_config reverse_Permutation)
    as (_ & _ & _ & _ & Hecho).
  destruct (Hecho (map byte_of_char)) as [Hc Hl].
  { intros i chunk _. reflexivity. }
  split; [exact Hc | apply Hl; discriminate].
Defined.

(** ** Retry *)

(** C7. When every attempt for a chunk is answered with HTTP 429,
    [synthesize_speech] sends exactly [MAX_RETRIES] requests, pauses
    [RETRY_BASE_DELAY * 2^attempt] after attempt 0 and attempt 1, and then
    raises; the dispatcher then raises too instead of returning audio
    buffers, whatever the completion order, and [main] ends with status 1
    without saving any audio. *)
Theorem synthesize_speech_rate_limit_exhausted
    (service : nat -> str -> nat -> response)
    (as_completed : list future -> list future)
    (chunks : list TextChunk) (config : SynthesisConfig)
    (i : nat) (chunk : TextChunk) :
  (forall l, as_completed l ≡ₚ l) ->
  chunks !! i = Some chunk ->
  (forall attempt, service i (text chunk) attempt = Failed (HTTPError 429)) ->
  Compressed.synthesize_speech (service i) (text chunk) config new_world
  = (Raise (RequestException (HTTPError 429)),
     mkWorld Compressed.MAX_RETRIES
       [Post (text chunk); Sleep (backoff 0);
        Post (text chunk); Sleep (backoff 1);
        Post (text chunk)]) /\
  (exists e,
     Compressed.synthesize_all_chunks service as_completed chunks config
     = Raise e) /\
  Compressed.main_try service as_completed chunks config = (1, None).
Proof.
  intros Hperm Hi Hlimit.
  assert (Hcall :
    Compressed.synthesize_speech (service i) (text chunk) config new_world
    = (Raise (RequestException (HTTPError 429)),
       mkWorld Compressed.MAX_RETRIES
         [Post (text chunk); Sleep (backoff 0);
          Post (text chunk); Sleep (backoff 1);
          Post (text chunk)])).
  { unfold Compressed.synthesize_speech, Compressed.MAX_RETRIES.
    cbn [seq Compressed.retry_loop post requests_sent new_world].
    rewrite !Hlimit. reflexivity. }
  split; [exact Hcall|].
  assert (Hall : exists e,
    Compressed.synthesize_all_chunks service as_completed chunks config
    = Raise e).
  { rewrite Compressed_dispatch.
    eapply dispatch_fails; [apply Hperm | exact Hi |].
    cbn beta. by rewrite Hcall. }
  split; [exact Hall|]. destruct Hall as [e He].
  unfold Compressed.main_try. by rewrite He.
Qed.

Lemma synthesize_speech_rate_limit_exhausted_witness :
  Compressed.synthesize_speech always_rate_limited (of_string "One.")
    demo_config new_world
  = (Raise (RequestException (HTTPError 429)),
     mkWorld 3
       [Post (of_string "One."); Sleep 1%float;
        Post (of_string "One."); Sleep 2%float;
        Post (of_string "One.")]) /\
  (exists e,
     Compressed.synthesize_all_chunks
       (fun i => match i with O => always_rate_limited | _ => service_ok i end)
       reverse [chunk_a; chunk_b] demo_config
     = Raise e) /\
  Compressed.main_try
    (fun i => match i with O => always_rate_limited | _ => service_ok i end)
    reverse [chunk_a; chunk_b] demo_config = (1, None).
Proof.
  exact (synthesize_speech_rate_limit_exhausted
           (fun i => match i with O => always_rate_limited | _ => service_ok i end)
           reverse [chunk_a; chunk_b] demo_config 0 chunk_a
           reverse_Permutation eq_refl (fun _ => eq_refl)).
Defined.

(** A timeout at attempt [k], after HTTP 429 at the attempts before it,
    ends the call there. *)
Lemma retry_timeout (server : str -> nat -> response)
    (text : str) (config : SynthesisConfig) (k : nat) :
  (k < Compressed.MAX_RETRIES)%nat ->
  (forall attempt, (attempt < k)%nat ->
     server text attempt = Failed (HTTPError 429)) ->
  server text k = Failed Timeout ->
  exists w,
    Compressed.synthesize_speech server text config new_world
    = (Raise (RequestException Timeout), w) /\
    requests_sent w = S k /\
    last (trace w) = Some (Post text) /\
    pauses (trace w) = map backoff (seq 0 k).
Proof.
  intros Hk Hbefore Hat.
  unfold Compressed.synthesize_speech, Compressed.MAX_RETRIES in *.
  destruct k as [|[|[|k]]]; [| | |lia].
  - cbn [seq Compressed.retry_loop post requests_sent new_world].
    rewrite Hat. eexists. split; [reflexivity|]. by vm_compute.
  - cbn [seq Compressed.retry_loop post requests_sent new_world].
    rewrite (Hbefore 0%nat) by lia.
    cbn [response_status bool_decide decide_rel]. simpl.
    rewrite Hat. eexists. split; [reflexivity|]. repeat split.
  - cbn [seq Compressed.retry_loop post requests_sent new_world].
    rewrite (Hbefore 0%nat) by lia. simpl.
    rewrite (Hbefore 1%nat) by lia. simpl.
    rewrite Hat. eexists. split; [reflexivity|]. repeat split.
Qed.

(** C8, counterexample.  When every request times out, the call gives up
    after its first request, without a pause, while under HTTP 429 it
    sends three requests; and a pipeline whose first chunk meets the
    timeout ends with status 1 and saves nothing, although the service
    answers every request for the other chunk. *)
Lemma synthesize_speech_timeout_once :
  Compressed.synthesize_speech always_timeout (of_string "One.")
    demo_config new_world
  = (Raise (RequestException Timeout), mkWorld 1 [Post (of_string "One.")]) /\
  requests_sent
    (snd (Compressed.synthesize_speech always_rate_limited (of_string "One.")
            demo_config new_world)) = 3%nat /\
  ~ timeout_retried_as_stated always_timeout (of_string "One.") demo_config /\
  Compressed.main_try
    (fun i => match i with O => always_timeout | _ => service_ok i end)
    (fun l => l) [chunk_a; chunk_b] demo_config = (1, None).
Proof.
  split; [reflexivity|]. split; [reflexivity|]. split; [|reflexivity].
  unfold timeout_retried_as_stated. vm_compute. discriminate.
Qed.

(** C8, amended.  A synthesis call that meets a network timeout is not
    retried: at whichever attempt the timeout occurs, the earlier ones
    having been answered with HTTP 429, [synthesize_speech] re-raises it
    at once, without a further request or pause.  Only HTTP 429 is
    retried.  A pipeline in which the call for some chunk meets the
    timeout in this way fails on it: whatever the other calls do and
    whatever the completion order, the dispatcher raises instead of
    returning audio buffers, and [main] ends with status 1 without saving
    any audio. *)
Theorem synthesize_speech_timeout_fatal (server : str -> nat -> response)
    (text : str) (config : SynthesisConfig) (k : nat) :
  (k < Compressed.MAX_RETRIES)%nat ->
  (forall attempt, (attempt < k)%nat ->
     server text attempt = Failed (HTTPError 429)) ->
  server text k = Failed Timeout ->
  (exists w,
     Compressed.synthesize_speech server text config new_world
     = (Raise (RequestException Timeout), w) /\
     requests_sent w = S k /\
     last (trace w) = Some (Post text) /\
     pauses (trace w) = map backoff (seq 0 k)) /\
  (forall (service : nat -> str -> nat -> response)
      (as_completed : list future -> list future)
      (chunks : list TextChunk) (i : nat) (start_char end_char : Z),
     (forall l, as_completed l ≡ₚ l) ->
     chunks !! i = Some (mkTextChunk text start_char end_char) ->
     (forall attempt, (attempt <= k)%nat ->
        service i text attempt = server text attempt) ->
     (exists e,
        Compressed.synthesize_all_chunks service as_completed chunks config
        = Raise e) /\
     Compressed.main_try service as_completed chunks config = (1, None)).
Proof.
  intros Hk Hbefore Hat. split; [by apply retry_timeout|].
  intros service as_completed chunks i start_char end_char Hperm Hi Hsame.
  destruct (retry_timeout (service i) text config k Hk) as (w & Hcall & _).
  { intros attempt Hlt. rewrite Hsame by lia. by apply Hbefore. }
  { by rewrite Hsame by lia. }
  assert (Hall : exists e,
    Compressed.synthesize_all_chunks service as_completed chunks config
    = Raise e).
  { rewrite Compressed_dispatch.
    eapply dispatch_fails; [apply Hperm | exact Hi |].
    exact (f_equal fst Hcall). }
  split; [exact Hall|]. destruct Hall as [e He].
  unfold Compressed.main_try. by rewrite He.
Qed.

Lemma synthesize_speech_timeout_fatal_witness :
  (exists w,
     Compressed.synthesize_speech
       (fun t n =>
          match n with O => Failed (HTTPError 429) | _ => Failed Timeout end)
       (of_string "Two.") demo_config new_world
     = (Raise (RequestException Timeout), w) /\
     requests_sent w = 2%nat) /\
  Compressed.main_try
    (fun i t n =>
       match i, n with
       | 1%nat, O => Failed (HTTPError 429)
       | 1%nat, _ => Failed Timeout
       | _, _ => service_ok i t n
       end)
    reverse [chunk_a; chunk_b] demo_config = (1, None).
Proof.
  destruct (synthesize_speech_timeout_fatal
              (fun t n =>
                 match n with
                 | O => Failed (HTTPError 429)
                 | _ => Failed Timeout
                 end)
              (of_string "Two.") demo_config 1) as ((w & H & Hn & _) & Hpipe).
  - vm_compute. lia.
  - intros [|n] Hn; [reflexivity | lia].
  - reflexivity.
  - split; [exists w; split; [exact H | exact Hn]|].
    apply (Hpipe _ reverse [chunk_a; chunk_b] 1%nat 5 9
             reverse_Permutation eq_refl).
    intros [|[|n]] Hle; [reflexivity | reflexivity | lia].
Defined.

(** ** Worked examples *)

Example finditer_sentence_ends :
  finditer sentence_end_pattern (of_string "Hi. Yes!'  No?' x.y z.")
  = [mkMatch 2 4; mkMatch 7 11; mkMatch 13 16; mkMatch 21 22].
Proof. by vm_compute. Qed.

Example chunk_text_short_document :
  LongInput.chunk_text (of_string "Hello world.")
  = Some [mkTextChunk (of_string "Hello world.") 0 12] /\
  Compressed.chunk_text (of_string "  Hello world. ")
  = Some [mkTextChunk (of_string "Hello world.") 0 15].
Proof. split; by vm_compute. Qed.

Example sentence_cut_without_boundary :
  LongInput.sentence_cut (replicate 1900 97%N) = LongInput.MAX_CHUNK_SIZE /\
  Compressed.find_break_point (replicate 2000 97%N) 500 1900 0 = Some 1900.
Proof. split; by vm_compute. Qed.

Example find_break_point_prefers_paragraph :
  Compressed.find_break_point
    (replicate 600 97%N ++ of_string ". " ++ replicate 100 98%N
       ++ [10%N; 10%N] ++ replicate 1500 99%N) 500 1900 0
  = Some 704.
Proof. by vm_compute. Qed.

Example chunk_text_gap_in_the_middle :
  option_map (map (fun c => (start_char c, end_char c)))
    (LongInput.chunk_text
       (replicate 1899 97%N ++ of_string "." ++ replicate 1899 10%N
          ++ of_string " " ++ of_string "b"))
  = Some [(0, 1900); (3800, 3801)].
Proof. by vm_compute. Qed.

Example combine_single_buffer :
  LongInput.combine_audio_buffers (fun _ => EmptyString)
    [LongInput.RIFF ++ replicate 40 Byte.x00 ++ [Byte.x01; Byte.x02]]
    [chunk_a]
  = Ok ([Byte.x01; Byte.x02], [], (2 / 96000)%float).
Proof. by vm_compute. Qed.

Example retry_then_success :
  Compressed.synthesize_speech
    (fun t n =>
       match n with O => Failed (HTTPError 429) | _ => Audio [Byte.x2a] end)
    (of_string "One.") demo_config new_world
  = (Ok [Byte.x2a],
     mkWorld 2 [Post (of_string "One."); Sleep 1%float; Post (of_string "One.")]).
Proof. by vm_compute. Qed.

(** * Further properties of the chunkers *)

Lemma lstrip_split s : exists l, s = l ++ lstrip s /\ blank l.
Proof.
  induction s as [|c s (l & Hs & Hl)]; simpl.
  - exists []. split; [done | constructor].
  - destruct (isspace c) eqn:E.
    + exists (c :: l). split; [by rewrite Hs at 1 | by constructor].
    + exists []. split; [done | constructor].
Qed.

Lemma blank_rev s : blank s -> blank (rev s).
Proof.
  unfold blank. rewrite !Forall_forall. intros H x Hx. apply H.
  apply list_elem_of_In, in_rev. by apply list_elem_of_In.
Qed.

Lemma rstrip_split s : exists r, s = rstrip s ++ r /\ blank r.
Proof.
  unfold rstrip. destruct (lstrip_split (rev s)) as (l & Hs & Hl).
  exists (rev l). split; [|by apply blank_rev].
  rewrite <- rev_app_distr, <- Hs. by rewrite rev_involutive.
Qed.

Lemma strip_split s : exists l r, s = l ++ strip s ++ r /\ blank l /\ blank r.
Proof.
  destruct (lstrip_split s) as (l & Hs & Hl).
  destruct (rstrip_split (lstrip s)) as (r & Hr & Hbr).
  exists l, r. unfold strip. by rewrite <- Hr.
Qed.

Lemma last_rev {A} (l : list A) : last (rev l) = head l.
Proof. destruct l as [|a l]; [done|]. simpl. apply last_snoc. Qed.

Lemma head_rev {A} (l : list A) : head (rev l) = last l.
Proof. rewrite <- (rev_involutive l) at 2. by rewrite last_rev. Qed.

Lemma lstrip_head_nonspace s :
  lstrip s <> [] ->
  exists c, head (lstrip s) = Some c /\ isspace c = false.
Proof.
  destruct (lstrip s) as [|c t] eqn:E; [done|]. intros _.
  exists c. split; [done | by eapply lstrip_head].
Qed.

Lemma lstrip_last s : lstrip s <> [] -> last (lstrip s) = last s.
Proof.
  intros Hne. destruct (lstrip_split s) as (l & Hs & _).
  rewrite Hs at 2. rewrite last_app.
  destruct (last (lstrip s)) eqn:E; [done|]. by apply last_None in E.
Qed.

Lemma strip_ends s :
  strip s <> [] ->
  (exists first, head (strip s) = Some first /\ isspace first = false) /\
  (exists final, last (strip s) = Some final /\ isspace final = false).
Proof.
  unfold strip, rstrip. intros Hne.
  assert (Hin : lstrip (rev (lstrip s)) <> []).
  { intros H. by rewrite H in Hne. }
  split.
  - rewrite head_rev, lstrip_last by done. rewrite last_rev.
    apply lstrip_head_nonspace. intros H. by rewrite H in Hin.
  - rewrite last_rev. by apply lstrip_head_nonspace.
Qed.

Lemma strip_trimmed_of s : strip s <> [] -> trimmed_of s (strip s).
Proof.
  intros Hne. split; [apply strip_split | by apply strip_ends].
Qed.

Lemma squeeze_blank s : blank s -> squeeze s = [].
Proof.
  unfold squeeze. induction 1 as [|c s Hc _ IH]; [done|].
  rewrite filter_cons_False; [done | congruence].
Qed.

Lemma squeeze_strip s : squeeze (strip s) = squeeze s.
Proof.
  destruct (strip_split s) as (l & r & Hs & Hl & Hr).
  rewrite Hs at 2. unfold squeeze. rewrite !filter_app.
  fold (squeeze l) (squeeze r).
  rewrite (squeeze_blank l), (squeeze_blank r) by done.
  by rewrite app_nil_r.
Qed.

Lemma substr_drop (doc : str) (pos e : Z) :
  0 <= pos <= e ->
  drop (Z.to_nat pos) doc = substr doc pos e ++ drop (Z.to_nat e) doc.
Proof.
  intros H. unfold substr.
  rewrite <- (take_drop (Z.to_nat (e - pos)) (drop (Z.to_nat pos) doc)) at 1.
  rewrite drop_drop. do 2 f_equal. lia.
Qed.

Lemma tiles_squeeze max_size doc pos cs :
  tiles max_size doc pos cs -> 0 <= pos ->
  squeeze (concat (map text cs)) = squeeze (drop (Z.to_nat pos) doc).
Proof.
  induction 1 as [pos Hend|pos e cs ? ? ? Hb ? IH|pos e cs ? ? ? ? ? IH];
    intros Hpos.
  - rewrite drop_ge; [done|]. unfold len in Hend. lia.
  - rewrite (substr_drop doc pos e) by lia. unfold squeeze at 2.
    rewrite filter_app. fold (squeeze (substr doc pos e)).
    rewrite (squeeze_blank (substr doc pos e)) by done. apply IH. lia.
  - rewrite (substr_drop doc pos e) by lia. simpl. unfold squeeze.
    rewrite !filter_app. fold (squeeze (strip (substr doc pos e))).
    rewrite squeeze_strip. f_equal. apply IH. lia.
Qed.

(** X1. The chunks lose nothing but whitespace: for every document, the
    texts of the chunks, read one after the other with all whitespace
    taken out, are the document with all whitespace taken out.  No
    character is dropped, repeated or moved. *)
Theorem chunk_text_keeps_content (doc : str) :
  (exists chunks, LongInput.chunk_text doc = Some chunks /\
     squeeze (concat (map text chunks)) = squeeze doc) /\
  (exists chunks, Compressed.chunk_text doc = Some chunks /\
     squeeze (concat (map text chunks)) = squeeze doc).
Proof.
  split.
  - destruct (LongInput_chunk_text_tiles doc) as (chunks & Hc & Ht).
    exists chunks. split; [done|]. by apply (tiles_squeeze _ _ _ _ Ht).
  - destruct (Compressed_chunk_text_tiles doc) as (chunks & Hc & Ht).
    exists chunks. split; [done|]. by apply (tiles_squeeze _ _ _ _ Ht).
Qed.

Lemma tiles_trimmed max_size doc pos cs :
  tiles max_size doc pos cs ->
  Forall (fun c => trimmed_of (substr doc (start_char c) (end_char c)) (text c)) cs.
Proof.
  induction 1 as [pos ?|pos e cs ? ? ? ? ? IH|pos e cs ? ? ? ? ? IH].
  - constructor.
  - done.
  - constructor; [|done]. simpl. by apply strip_trimmed_of.
Qed.

(** X2. Trimming shrinks a chunk without shifting it: the text of every
    chunk is the slice [doc[start_char:end_char]] less a prefix and a
    suffix made of whitespace only, and it starts and ends with a
    character that is not whitespace. *)
Theorem chunk_text_trimmed (doc : str) :
  (exists chunks, LongInput.chunk_text doc = Some chunks /\
     Forall (fun c => trimmed_of (substr doc (start_char c) (end_char c))
                        (text c)) chunks) /\
  (exists chunks, Compressed.chunk_text doc = Some chunks /\
     Forall (fun c => trimmed_of (substr doc (start_char c) (end_char c))
                        (text c)) chunks).
Proof.
  split.
  - destruct (LongInput_chunk_text_tiles doc) as (chunks & Hc & Ht).
    exists chunks. split; [done | by eapply tiles_trimmed].
  - destruct (Compressed_chunk_text_tiles doc) as (chunks & Hc & Ht).
    exists chunks. split; [done | by eapply tiles_trimmed].
Qed.

Lemma chunk_loop_short (doc : str) :
  len doc <= 1900 ->
  LongInput.chunk_text doc
  = Some (if truthy (strip doc) then [mkTextChunk (strip doc) 0 (len doc)]
          else []) /\
  Compressed.chunk_text doc
  = Some (if truthy (strip doc) then [mkTextChunk (strip doc) 0 (len doc)]
          else []).
Proof.
  intros Hlen.
  unfold LongInput.chunk_text, Compressed.chunk_text.
  cbn [LongInput.chunk_loop Compressed.chunk_loop].
  destruct (Z.ltb_spec 0 (len doc)) as [Hpos|Hnil].
  - rewrite slice_from_drop by lia. change (drop (Z.to_nat 0) doc) with doc.
    unfold LongInput.MAX_CHUNK_SIZE, Compressed.MAX_CHUNK_SIZE.
    destruct (Z.leb_spec (len doc) 1900); [|lia]. by destruct (truthy _).
  - destruct doc; [done | unfold len in Hnil; simpl in Hnil; lia].
Qed.

(** X3. A document of at most [MAX_CHUNK_SIZE] characters is never split:
    it gives exactly one chunk, spanning the whole document and holding
    the trimmed document, unless it is blank, and then it gives none. *)
Theorem chunk_text_one_chunk (doc : str) :
  len doc <= LongInput.MAX_CHUNK_SIZE ->
  (~ blank doc ->
     LongInput.chunk_text doc = Some [mkTextChunk (strip doc) 0 (len doc)] /\
     Compressed.chunk_text doc = Some [mkTextChunk (strip doc) 0 (len doc)]) /\
  (blank doc ->
     LongInput.chunk_text doc = Some [] /\ Compressed.chunk_text doc = Some []).
Proof.
  intros Hlen. destruct (chunk_loop_short doc Hlen) as [-> ->].
  split; intros Hb.
  - destruct (truthy (strip doc)) eqn:E; [done|].
    apply truthy_false, strip_nil in E. done.
  - apply strip_nil in Hb. by rewrite Hb.
Qed.

Lemma chunk_text_one_chunk_witness :
  LongInput.chunk_text (of_string " Hi there. ")
  = Some [mkTextChunk (of_string "Hi there.") 0 11].
Proof.
  refine (proj1 (proj1 (chunk_text_one_chunk (of_string " Hi there. ") _) _)).
  - by vm_compute.
  - intros H. apply Forall_inv_tail, Forall_inv in H. by vm_compute in H.
Defined.

(** * Further properties of the natural-boundary policy *)

Lemma find_from_first sub s : forall i,
  (find_from sub s i = -1 /\
   forall k : nat, (k <= length s)%nat -> ~ occurs_at sub s k) \/
  (exists j : nat,
     find_from sub s i = i + Z.of_nat j /\ occurs_at sub s j /\
     forall k : nat, (k < j)%nat -> ~ occurs_at sub s k).
Proof.
  unfold occurs_at.
  induction s as [|c s IH]; intros i; simpl.
  - destruct (startswith sub []) eqn:E.
    + right. exists 0%nat. split; [lia|]. split; [done|]. intros k ?. lia.
    + left. split; [done|]. intros [|k] ?; [|lia]. simpl. by rewrite E.
  - destruct (startswith sub (c :: s)) eqn:E.
    + right. exists 0%nat. split; [lia|]. split; [done|]. intros k ?. lia.
    + destruct (IH (i + 1)) as [[Hr Hn]|(j & Hr & Hj & Hl)].
      * left. split; [done|]. intros [|k] Hk; simpl; [by rewrite E|].
        apply Hn. lia.
      * right. exists (S j). split; [lia|]. split; [done|].
        intros [|k] Hk; simpl; [by rewrite E|]. apply Hl. lia.
Qed.

(** [find] answers the first occurrence at or after [start], or [-1] when
    there is none. *)
Lemma find_first sub s start :
  sub <> [] -> 0 <= start ->
  (find sub s start = -1 /\
   forall k : nat, (Z.to_nat start <= k)%nat -> ~ occurs_at sub s k) \/
  (exists j : nat,
     find sub s start = Z.of_nat j /\ (Z.to_nat start <= j)%nat /\
     occurs_at sub s j /\
     forall k : nat, (Z.to_nat start <= k < j)%nat -> ~ occurs_at sub s k).
Proof.
  intros Hsub Hstart.
  assert (Hempty : startswith sub [] = false) by (by destruct sub).
  unfold find, slice_bound. destruct (Z.ltb_spec start 0); [lia|].
  destruct (Z.le_gt_cases start (Z.of_nat (length s))) as [Hle|Hgt].
  - rewrite Z.min_l by done. set (n := Z.to_nat start).
    destruct (find_from_first sub (drop n s) (Z.of_nat n))
      as [[Hr Hn]|(j & Hr & Hj & Hl)].
    + left. split; [done|]. intros k Hk. unfold occurs_at in *.
      destruct (Nat.le_gt_cases k (length s)) as [Hin|Hout].
      * specialize (Hn (k - n)%nat). rewrite drop_drop, length_drop in Hn.
        replace (n + (k - n))%nat with k in Hn by lia. apply Hn. lia.
      * rewrite drop_ge by lia. by rewrite Hempty.
    + right. exists (n + j)%nat. unfold occurs_at in *.
      rewrite drop_drop in Hj. split; [lia|]. split; [lia|]. split; [done|].
      intros k Hk. specialize (Hl (k - n)%nat). rewrite drop_drop in Hl.
      replace (n + (k - n))%nat with k in Hl by lia. apply Hl. lia.
  - left. rewrite Z.min_r, Nat2Z.id by lia. rewrite drop_ge by lia.
    split; [by destruct sub|]. intros k Hk. unfold occurs_at.
    rewrite drop_ge by lia. by rewrite Hempty.
Qed.

Lemma occurs_at_newline (w : str) (j : nat) :
  occurs_at Compressed.newline w j <-> newline_at w j.
Proof.
  unfold occurs_at, newline_at, Compressed.newline.
  assert (w !! j = drop j w !! 0%nat) as ->
    by (by rewrite lookup_drop, Nat.add_0_r).
  destruct (drop j w) as [|c t]; cbn [startswith]; [split; done|].
  change ((c :: t) !! 0%nat) with (Some c).
  rewrite andb_true_r, N.eqb_eq. split; [by intros <- | by intros [= ->]].
Qed.

Lemma occurs_at_paragraph (w : str) (j : nat) :
  occurs_at (Compressed.newline ++ Compressed.newline) w j
  <-> paragraph_break_at w j.
Proof.
  unfold occurs_at, paragraph_break_at, Compressed.newline.
  assert (w !! j = drop j w !! 0%nat) as ->
    by (by rewrite lookup_drop, Nat.add_0_r).
  assert (w !! S j = drop j w !! 1%nat) as ->
    by (rewrite lookup_drop; f_equal; lia).
  destruct (drop j w) as [|c [|d t]]; cbn [startswith app].
  - split; [done | by intros [? _]].
  - rewrite andb_false_r. split; [done | by intros [_ ?]].
  - change ((c :: d :: t) !! 0%nat) with (Some c).
    change ((c :: d :: t) !! 1%nat) with (Some d).
    rewrite andb_true_r, andb_true_iff, !N.eqb_eq.
    split; [by intros [<- <-] | by intros [[= ->] [= ->]]].
Qed.

Lemma occurs_at_length sub (w : str) (j : nat) :
  occurs_at sub w j -> sub <> [] -> (Z.of_nat j + len sub <= len w).
Proof.
  unfold occurs_at. intros H Hsub. apply startswith_length in H.
  rewrite length_drop in H. unfold len.
  assert (0 < length sub)%nat by (destruct sub; [done | simpl; lia]). lia.
Qed.

(** The scan for a separator: it returns just past the first occurrence
    at or after [min_pos], and breaks when there is none. *)
Lemma separator_scan_first fuel sep (w : str) min_pos max_pos :
  sep <> [] -> 0 <= min_pos -> len w <= max_pos ->
  (Compressed.separator_scan (S fuel) sep w min_pos max_pos min_pos
   = Some Compressed.Break /\
   forall k : nat, (Z.to_nat min_pos <= k)%nat -> ~ occurs_at sep w k) \/
  (exists j : nat,
     Compressed.separator_scan (S fuel) sep w min_pos max_pos min_pos
     = Some (Compressed.Return (Z.of_nat j + len sep)) /\
     (Z.to_nat min_pos <= j)%nat /\ occurs_at sep w j /\
     forall k : nat, (Z.to_nat min_pos <= k < j)%nat -> ~ occurs_at sep w k).
Proof.
  intros Hsep Hmin Hmax. cbn [Compressed.separator_scan].
  destruct (find_first sep w min_pos Hsep Hmin)
    as [[-> Hn]|(j & -> & Hj & Hocc & Hl)].
  - left. by split.
  - right. exists j. pose proof (occurs_at_length sep w j Hocc Hsep).
    assert (0 < len sep) by (destruct sep; [done | unfold len; simpl; lia]).
    destruct (Z.eqb_spec (Z.of_nat j) (-1)); [lia|].
    destruct (Z.leb_spec max_pos (Z.of_nat j)); [lia|]. simpl.
    destruct (Z.leb_spec min_pos (Z.of_nat j)); [|lia]. done.
Qed.

Lemma first_occurrence_unique (P : nat -> Prop) (lo j j' : nat) :
  (lo <= j)%nat -> P j -> (forall k, (lo <= k < j)%nat -> ~ P k) ->
  (lo <= j')%nat -> P j' -> (forall k, (lo <= k < j')%nat -> ~ P k) ->
  j = j'.
Proof.
  intros Hj Pj Hl Hj' Pj' Hl'.
  destruct (Nat.lt_trichotomy j j') as [?|[?|?]]; [|done|].
  - exfalso. apply (Hl' j); [lia | done].
  - exfalso. apply (Hl j'); [lia | done].
Qed.

(** X4. Paragraph breaks come first: when the window [text[:max_pos]]
    holds a paragraph break at or after [min_pos], [find_break_point]
    cuts just past the first such break, whatever line breaks or
    sentence ends come before it. *)
Theorem find_break_point_paragraph (text : str) (min_pos max_pos chunk_index : Z)
    (j : nat) :
  0 <= min_pos -> 0 <= max_pos ->
  (Z.to_nat min_pos <= j)%nat ->
  paragraph_break_at (slice_to text max_pos) j ->
  (forall k : nat, (Z.to_nat min_pos <= k < j)%nat ->
     ~ paragraph_break_at (slice_to text max_pos) k) ->
  Compressed.find_break_point text min_pos max_pos chunk_index
  = Some (Z.of_nat j + 2).
Proof.
  intros Hmin Hmax Hj Hpara Hfirst. unfold Compressed.find_break_point.
  set (w := slice_to text max_pos) in *.
  assert (Hw : len w <= max_pos).
  { unfold w. rewrite len_slice_to by lia. lia. }
  destruct (separator_scan_first (length w)
              (Compressed.newline ++ Compressed.newline) w min_pos max_pos)
    as [[_ Hn]|(j' & -> & Hj' & Hocc & Hl)]; [done | done | done | |].
  - exfalso. apply (Hn j Hj). by apply occurs_at_paragraph.
  - assert (j = j') as <-; [|done].
    apply (first_occurrence_unique (paragraph_break_at w) (Z.to_nat min_pos));
      try done.
    + by apply occurs_at_paragraph.
    + intros k Hk ?. apply (Hl k Hk). by apply occurs_at_paragraph.
Qed.

Lemma find_break_point_paragraph_witness :
  Compressed.find_break_point
    (of_string "ab. cd" ++ [10%N] ++ of_string "ef" ++ [10%N; 10%N]
       ++ of_string "gh") 2 11 0 = Some 11.
Proof.
  apply (find_break_point_paragraph _ 2 11 0 9); try lia.
  - split; reflexivity.
  - intros k Hk [H1 H2].
    do 9 (destruct k as [|k];
          [try lia; vm_compute in H1; vm_compute in H2; congruence|]).
    lia.
Defined.

(** X5. Line breaks come second: when the window holds no paragraph
    break at or after [min_pos] but a line break there, [find_break_point]
    cuts just past the first such line break, whatever sentence ends come
    before it. *)
Theorem find_break_point_line (text : str) (min_pos max_pos chunk_index : Z)
    (j : nat) :
  0 <= min_pos -> 0 <= max_pos ->
  (forall k : nat, (Z.to_nat min_pos <= k)%nat ->
     ~ paragraph_break_at (slice_to text max_pos) k) ->
  (Z.to_nat min_pos <= j)%nat ->
  newline_at (slice_to text max_pos) j ->
  (forall k : nat, (Z.to_nat min_pos <= k < j)%nat ->
     ~ newline_at (slice_to text max_pos) k) ->
  Compressed.find_break_point text min_pos max_pos chunk_index
  = Some (Z.of_nat j + 1).
Proof.
  intros Hmin Hmax Hnopara Hj Hnl Hfirst. unfold Compressed.find_break_point.
  set (w := slice_to text max_pos) in *.
  assert (Hw : len w <= max_pos).
  { unfold w. rewrite len_slice_to by lia. lia. }
  destruct (separator_scan_first (length w)
              (Compressed.newline ++ Compressed.newline) w min_pos max_pos)
    as [[-> _]|(j' & _ & Hj' & Hocc & _)]; [done | done | done | |].
  2:{ exfalso. apply (Hnopara j' Hj'). by apply occurs_at_paragraph. }
  destruct (separator_scan_first (length w) Compressed.newline w min_pos max_pos)
    as [[_ Hn]|(j' & -> & Hj' & Hocc & Hl)]; [done | done | done | |].
  - exfalso. apply (Hn j Hj). by apply occurs_at_newline.
  - assert (j = j') as <-; [|done].
    apply (first_occurrence_unique (newline_at w) (Z.to_nat min_pos));
      try done.
    + by apply occurs_at_newline.
    + intros k Hk ?. apply (Hl k Hk). by apply occurs_at_newline.
Qed.

Lemma find_break_point_line_witness :
  Compressed.find_break_point
    (of_string "ab. cd" ++ [10%N] ++ of_string "ef gh") 2 11 0 = Some 7.
Proof.
  apply (find_break_point_line _ 2 11 0 6); try lia.
  - intros k Hk [H1 H2].
    do 12 (destruct k as [|k];
           [try lia; vm_compute in H1; vm_compute in H2; congruence|]).
    vm_compute in H1. congruence.
  - reflexivity.
  - intros k Hk H1.
    do 6 (destruct k as [|k]; [try lia; vm_compute in H1; congruence|]).
    lia.
Defined.

Lemma no_newline_breaks (text : str) (min_pos max_pos chunk_index : Z) :
  0 <= min_pos -> 0 <= max_pos ->
  (forall k : nat, (Z.to_nat min_pos <= k)%nat ->
     ~ newline_at (slice_to text max_pos) k) ->
  Compressed.find_break_point text min_pos max_pos chunk_index
  = Some (Compressed.sentence_or_space (slice_to text max_pos) min_pos max_pos).
Proof.
  intros Hmin Hmax Hnone. unfold Compressed.find_break_point.
  set (w := slice_to text max_pos) in *.
  assert (Hw : len w <= max_pos).
  { unfold w. rewrite len_slice_to by lia. lia. }
  destruct (separator_scan_first (length w)
              (Compressed.newline ++ Compressed.newline) w min_pos max_pos)
    as [[-> _]|(j' & _ & Hj' & Hocc & _)]; [done | done | done | |].
  2:{ exfalso. apply (Hnone j' Hj'). apply occurs_at_paragraph in Hocc.
      by destruct Hocc. }
  destruct (separator_scan_first (length w) Compressed.newline w min_pos max_pos)
    as [[-> _]|(j' & _ & Hj' & Hocc & _)]; [done | done | done | |].
  - done.
  - exfalso. apply (Hnone j' Hj'). by apply occurs_at_newline.
Qed.

(** X6. Sentence ends come third: when the window [text[:max_pos]] holds
    no line break at or after [min_pos], [find_break_point] cuts at the
    end of the first sentence-terminator match that starts at or after
    [min_pos]; if no match starts that far, at the end of the last match;
    if there is no match at all, one past the last space provided it is
    not the first character of the window; and at [max_pos] otherwise. *)
Theorem find_break_point_sentence (text : str) (min_pos max_pos chunk_index : Z) :
  0 <= min_pos -> 0 <= max_pos ->
  (forall k : nat, (Z.to_nat min_pos <= k)%nat ->
     ~ newline_at (slice_to text max_pos) k) ->
  let w := slice_to text max_pos in
  let ms := finditer sentence_end_pattern w in
  let cut := Compressed.find_break_point text min_pos max_pos chunk_index in
  (forall pre m post, ms = pre ++ m :: post ->
     Forall (fun x => m_start x < min_pos) pre -> min_pos <= m_start m ->
     cut = Some (m_end m)) /\
  (forall m, Forall (fun x => m_start x < min_pos) ms -> last ms = Some m ->
     cut = Some (m_end m)) /\
  (forall j : nat, ms = [] -> (0 < j)%nat -> w !! j = Some 32%N ->
     (forall j' : nat, (j < j')%nat -> w !! j' <> Some 32%N) ->
     cut = Some (Z.of_nat j + 1)) /\
  (ms = [] -> (forall j : nat, (0 < j)%nat -> w !! j <> Some 32%N) ->
     cut = Some max_pos).
Proof.
  intros Hmin Hmax Hnone w ms cut. subst cut.
  rewrite no_newline_breaks by done. fold w.
  unfold Compressed.sentence_or_space. fold ms.
  assert (Hlt : forall l : list Match,
            Forall (fun x => m_start x < min_pos) l ->
            Forall (fun x => ~ min_pos <= m_start x) l).
  { intros l Hl. eapply Forall_impl; [exact Hl|]. intros x. simpl. lia. }
  pose proof (finditer_bounds w) as Hb. fold ms in Hb.
  change (of_string " ") with [32%N].
  split; [|split; [|split]].
  - intros pre m post -> Hpre Hm.
    destruct (filter_first (fun x => min_pos <= m_start x)
                pre m post (Hlt _ Hpre) Hm) as (rest & ->). done.
  - intros m Hall Hlast. rewrite filter_none by by apply Hlt.
    rewrite fold_last_end, Hlast.
    apply (last_match_in _ _ _ _ Hb) in Hlast. unfold match_in in Hlast.
    destruct (Z.ltb_spec 0 (m_end m)); [done | lia].
  - intros j -> Hj Hsp Hlast. simpl.
    destruct (rfind_char 32%N w) as [[_ Hn]|(j0 & -> & Hj0 & Hl0)].
    + apply list_elem_of_lookup_2 in Hsp. done.
    + assert (j0 = j).
      { destruct (Nat.lt_trichotomy j0 j) as [?|[?|?]]; [|done|].
        - by apply Hl0 in Hsp.
        - by apply Hlast in Hj0. }
      subst j0. destruct (Z.ltb_spec 0 (Z.of_nat j)); [done | lia].
  - intros -> Hno. simpl.
    destruct (rfind_char 32%N w) as [[-> _]|(j0 & -> & Hj0 & _)]; [done|].
    destruct j0 as [|j0]; [done|]. by apply Hno in Hj0; [|lia].
Qed.

Lemma find_break_point_sentence_witness :
  Compressed.find_break_point (of_string "ab. cd. ef") 4 10 0 = Some 8.
Proof.
  refine (proj1 (find_break_point_sentence (of_string "ab. cd. ef") 4 10 0
                   _ _ _) [mkMatch 2 4] (mkMatch 6 8) [] _ _ _).
  - lia.
  - lia.
  - intros k Hk H1.
    do 10 (destruct k as [|k]; [try lia; vm_compute in H1; congruence|]).
    vm_compute in H1. congruence.
  - reflexivity.
  - repeat constructor.
  - simpl. lia.
Defined.

(** X7. The contract of the boundary finder: for every text and every
    [min_pos >= 0] and [max_pos >= 1], [find_break_point] returns, and the
    offset it returns lies between 1 and [max_pos]. *)
Theorem find_break_point_offset (text : str) (min_pos max_pos chunk_index : Z) :
  0 <= min_pos -> 1 <= max_pos ->
  exists cut,
    Compressed.find_break_point text min_pos max_pos chunk_index = Some cut
    /\ 1 <= cut <= max_pos.
Proof. apply find_break_point_range. Qed.

Lemma find_break_point_offset_witness :
  exists cut,
    Compressed.find_break_point (of_string "abcdef") 2 4 0 = Some cut
    /\ 1 <= cut <= 4.
Proof.
  apply (find_break_point_offset (of_string "abcdef") 2 4 0); lia.
Defined.

(** * Chunks end with their sentence *)

Lemma match_plus_run p s rest :
  match_plus p s Some = Some rest ->
  exists ws, s = ws ++ rest /\ Forall (fun c => p c = true) ws.
Proof.
  revert rest. induction s as [|c s IH]; simpl; intros rest H; [done|].
  destruct (p c) eqn:Ep; [|done].
  destruct (match_plus p s Some) as [r|] eqn:E.
  - inversion H; subst. destruct (IH rest eq_refl) as (ws & -> & Hws).
    exists (c :: ws). split; [done | by constructor].
  - inversion H; subst. exists [c]. split; [done | by repeat constructor].
Qed.

Lemma match_tail_shape (k : str -> option str) (s rest : str) :
  (forall s', k s' = Some rest ->
     exists ws, s' = ws ++ rest /\ blank ws) ->
  match_re (Opt (Cls is_quote)) s k = Some rest ->
  exists q ws,
    s = q ++ ws ++ rest /\
    (q = [] \/ exists d, q = [d] /\ is_quote d = true) /\ blank ws.
Proof.
  intros Hk. cbn [match_re].
  destruct s as [|d s'].
  - intros H. destruct (Hk _ H) as (ws & Hs & Hws).
    exists [], ws. by auto.
  - destruct (is_quote d) eqn:Eq.
    + destruct (k s') as [x|] eqn:E.
      * intros [= ->]. destruct (Hk _ E) as (ws & -> & Hws).
        exists [d], ws. split; [done|]. split; [|done]. right. by exists d.
      * intros H. destruct (Hk _ H) as (ws & Hs & Hws).
        exists [], ws. by auto.
    + intros H. destruct (Hk _ H) as (ws & Hs & Hws).
      exists [], ws. by auto.
Qed.

Lemma terminator_sequence_shape (r : regex) (k : str -> option str)
    (s rest : str) :
  (forall s', match_re r s' Some = k s') ->
  (forall s', k s' = Some rest -> exists ws, s' = ws ++ rest /\ blank ws) ->
  match_here (Seq (Cls is_terminator) (Seq (Opt (Cls is_quote)) r)) s
  = Some rest ->
  exists t, s = t ++ rest /\ sentence_end_text t.
Proof.
  intros Hr Hk. unfold match_here. cbn [match_re].
  destruct s as [|c s']; [done|].
  destruct (is_terminator c) eqn:Et; [|done]. intros Hm.
  assert (Hm' : match_re (Opt (Cls is_quote)) s' k = Some rest).
  { cbn [match_re]. destruct s' as [|d s'']; [by rewrite <- Hr|].
    destruct (is_quote d); rewrite <- !Hr; done. }
  destruct (match_tail_shape k s' rest Hk Hm') as (q & ws & -> & Hq & Hws).
  exists (c :: q ++ ws). split; [simpl; by rewrite app_assoc|].
  by exists c, q, ws.
Qed.

Lemma sentence_match_shape (s rest : str) :
  match_here sentence_end_pattern s = Some rest ->
  exists t, s = t ++ rest /\ sentence_end_text t.
Proof.
  intros H. apply match_alt in H. destruct H as [H|H].
  - apply (terminator_sequence_shape (Plus isspace)
             (fun s' => match_plus isspace s' Some)); [done| |done].
    intros s' Hs'. by apply match_plus_run in Hs'.
  - apply (terminator_sequence_shape Eos
             (fun s' => if at_eos s' then Some s' else None)); [done| |done].
    intros s' Hs'. destruct (at_eos s'); [|done]. inversion Hs'; subst.
    exists []. split; [done | constructor].
Qed.

(** Every match that [finditer] reports is a match of the pattern at its
    start offset. *)
Lemma finditer_from_sound r s : forall pos skip m,
  m ∈ finditer_from r pos skip s ->
  exists (k : nat) rest,
    m_start m = pos + Z.of_nat k /\
    match_here r (drop k s) = Some rest /\
    m_end m = m_start m + Z.of_nat (length (drop k s) - length rest).
Proof.
  induction s as [|c s IH]; intros pos skip m Hm.
  - destruct skip; simpl in Hm; [|by apply not_elem_of_nil in Hm].
    destruct (match_here r []) as [rest|] eqn:E;
      [|by apply not_elem_of_nil in Hm].
    apply list_elem_of_singleton in Hm. subst m.
    exists 0%nat, rest. simpl. split; [lia|]. split; [done | lia].
  - assert (Htail : forall sk, m ∈ finditer_from r (pos + 1) sk s ->
      exists (k : nat) rest,
        m_start m = pos + Z.of_nat k /\
        match_here r (drop k (c :: s)) = Some rest /\
        m_end m = m_start m
                  + Z.of_nat (length (drop k (c :: s)) - length rest)).
    { intros sk H. destruct (IH _ _ _ H) as (k & rest & Hs & Hmatch & He).
      exists (S k), rest. simpl. split; [lia | done]. }
    destruct skip; simpl in Hm; [|by apply (Htail skip)].
    destruct (match_here r (c :: s)) as [rest|] eqn:E; [|by apply (Htail 0%nat)].
    apply elem_of_cons in Hm. destruct Hm as [->|Hm]; [|by eapply Htail].
    exists 0%nat, rest. simpl. split; [lia|]. split; [done | lia].
Qed.

Lemma finditer_sentence_text (w : str) m :
  m ∈ finditer sentence_end_pattern w ->
  exists a t,
    take (Z.to_nat (m_end m)) w = a ++ t /\ sentence_end_text t.
Proof.
  intros Hm. destruct (finditer_from_sound _ _ _ _ _ Hm)
    as (k & rest & Hs & Hmatch & He).
  destruct (sentence_match_shape _ _ Hmatch) as (t & Ht & Htext).
  exists (take k w), t. split; [|done].
  assert (Hk : (k <= length w)%nat).
  { destruct (Nat.le_gt_cases k (length w)); [done|].
    rewrite drop_ge in Hmatch by lia.
    apply sentence_match_shorter in Hmatch. simpl in Hmatch. lia. }
  assert (Hlen : Z.to_nat (m_end m) = (k + length t)%nat).
  { rewrite Ht, length_app in He. lia. }
  rewrite Hlen. rewrite <- (take_drop k w) at 1.
  rewrite take_app_add' by (rewrite length_take; lia).
  by rewrite Ht, take_app_length.
Qed.

Lemma lstrip_keeps_nonspace a z b :
  isspace z = false -> exists a', lstrip (a ++ z :: b) = a' ++ z :: b.
Proof.
  intros Hz. induction a as [|c a (a' & IH)]; simpl.
  - rewrite Hz. by exists [].
  - destruct (isspace c); [by exists a' | by exists (c :: a)].
Qed.

Lemma lstrip_blank_app l t : blank l -> lstrip (l ++ t) = lstrip t.
Proof.
  induction 1 as [|c l Hc _ IH]; [done|]. simpl. by rewrite Hc.
Qed.

Lemma strip_last_nonspace a z ws :
  isspace z = false -> blank ws -> last (strip (a ++ z :: ws)) = Some z.
Proof.
  intros Hz Hws. unfold strip, rstrip.
  destruct (lstrip_keeps_nonspace a z ws Hz) as (a' & ->).
  rewrite rev_app_distr. simpl. rewrite <- app_assoc. simpl.
  rewrite lstrip_blank_app by by apply blank_rev.
  simpl. rewrite Hz. simpl. rewrite rev_involutive. apply last_snoc.
Qed.

Lemma terminator_not_space c : is_terminator c = true -> isspace c = false.
Proof.
  unfold is_terminator. rewrite !orb_true_iff, !N.eqb_eq.
  by intros [[->| ->]| ->].
Qed.

Lemma quote_not_space c : is_quote c = true -> isspace c = false.
Proof.
  unfold is_quote. rewrite !orb_true_iff, !N.eqb_eq. by intros [->| ->].
Qed.

Lemma sentence_end_strip a t :
  sentence_end_text t ->
  exists final, last (strip (a ++ t)) = Some final /\
                (is_terminator final = true \/ is_quote final = true).
Proof.
  intros (c & q & ws & -> & Hc & [->|(d & -> & Hd)] & Hws).
  - exists c. split; [|by left]. simpl.
    by apply strip_last_nonspace; [apply terminator_not_space|].
  - exists d. split; [|by right].
    change (a ++ c :: [d] ++ ws) with (a ++ [c] ++ d :: ws).
    rewrite app_assoc.
    by apply strip_last_nonspace; [apply quote_not_space|].
Qed.

Lemma sentence_cut_is_match (w : str) :
  finditer sentence_end_pattern w <> [] ->
  exists m, m ∈ finditer sentence_end_pattern w
            /\ LongInput.sentence_cut w = m_end m.
Proof.
  intros Hne. unfold LongInput.sentence_cut.
  destruct (filter _ _) as [|m vs] eqn:Ef.
  - destruct (last _) as [m|] eqn:El; [|by apply last_None in El].
    exists m. split; [by apply last_Some_elem_of | done].
  - exists m. split; [|done].
    eapply (proj1 (list_elem_of_filter _ _ _)). rewrite Ef. left.
Qed.

Lemma sentence_or_space_is_match (w : str) min_pos max_pos :
  finditer sentence_end_pattern w <> [] ->
  exists m, m ∈ finditer sentence_end_pattern w
            /\ Compressed.sentence_or_space w min_pos max_pos = m_end m.
Proof.
  intros Hne. unfold Compressed.sentence_or_space.
  destruct (filter _ _) as [|m vs] eqn:Ef.
  - rewrite fold_last_end.
    destruct (last _) as [m|] eqn:El; [|by apply last_None in El].
    exists m. split; [by apply last_Some_elem_of|].
    pose proof (finditer_bounds w) as Hb.
    apply (last_match_in _ _ _ _ Hb) in El. unfold match_in in El.
    destruct (Z.ltb_spec 0 (m_end m)); [done | lia].
  - exists m. split; [|done].
    eapply (proj1 (list_elem_of_filter _ _ _)). rewrite Ef. left.
Qed.

Lemma slice_to_window {A} (s : list A) (n e : Z) :
  0 <= e <= len (slice_to s n) -> 0 <= n ->
  slice_to s e = take (Z.to_nat e) (slice_to s n).
Proof.
  intros He Hn. rewrite len_slice_to in He by done.
  rewrite !slice_to_take by lia. rewrite take_take. f_equal. lia.
Qed.

(** X8. Chunks end with their sentence: whenever the search window holds
    a sentence terminator ([.], [!] or [?], with an optional quote, before
    whitespace or the end of the window), the chunk that the sentence-first
    loop cuts ends, once trimmed, with a terminator or a closing quote;
    and so does the chunk of the natural policy when no line break stands
    at or after [min_pos]. *)
Theorem chunk_ends_with_sentence (remaining_text : str)
    (min_pos max_pos chunk_index : Z) :
  (finditer sentence_end_pattern
     (slice_to remaining_text LongInput.MAX_CHUNK_SIZE) <> [] ->
   exists final,
     last (strip (slice_to remaining_text
                    (LongInput.sentence_cut
                       (slice_to remaining_text LongInput.MAX_CHUNK_SIZE))))
     = Some final /\
     (is_terminator final = true \/ is_quote final = true)) /\
  (0 <= min_pos -> 0 <= max_pos ->
   (forall k : nat, (Z.to_nat min_pos <= k)%nat ->
      ~ newline_at (slice_to remaining_text max_pos) k) ->
   finditer sentence_end_pattern (slice_to remaining_text max_pos) <> [] ->
   exists chunk_end final,
     Compressed.find_break_point remaining_text min_pos max_pos chunk_index
     = Some chunk_end /\
     last (strip (slice_to remaining_text chunk_end)) = Some final /\
     (is_terminator final = true \/ is_quote final = true)).
Proof.
  split.
  - intros Hne. set (w := slice_to remaining_text LongInput.MAX_CHUNK_SIZE) in *.
    destruct (sentence_cut_is_match w Hne) as (m & Hm & ->).
    pose proof (finditer_bounds w) as Hb. rewrite Forall_forall in Hb.
    pose proof (Hb m Hm) as Hin. unfold match_in in Hin.
    rewrite (slice_to_window _ LongInput.MAX_CHUNK_SIZE);
      [|fold w; lia | done].
    fold w. destruct (finditer_sentence_text w m Hm) as (a & t & -> & Ht).
    by apply sentence_end_strip.
  - intros Hmin Hmax Hnone Hne. set (w := slice_to remaining_text max_pos) in *.
    rewrite no_newline_breaks by done. fold w.
    destruct (sentence_or_space_is_match w min_pos max_pos Hne) as (m & Hm & ->).
    pose proof (finditer_bounds w) as Hb. rewrite Forall_forall in Hb.
    pose proof (Hb m Hm) as Hin. unfold match_in in Hin.
    destruct (finditer_sentence_text w m Hm) as (a & t & Hw & Ht).
    destruct (sentence_end_strip a t Ht) as (final & Hl & Hf).
    exists (m_end m), final. split; [done|]. split; [|done].
    rewrite (slice_to_window _ max_pos); [|fold w; lia | done].
    fold w. by rewrite Hw.
Qed.

Lemma chunk_ends_with_sentence_witness :
  exists final,
    last (strip (slice_to (of_string "One. Two!' three")
                   (LongInput.sentence_cut
                      (slice_to (of_string "One. Two!' three")
                         LongInput.MAX_CHUNK_SIZE))))
    = Some final /\
    (is_terminator final = true \/ is_quote final = true).
Proof.
  apply (proj1 (chunk_ends_with_sentence (of_string "One. Two!' three") 0 0 0)).
  by vm_compute.
Defined.

(** * Further properties of the retry loop *)

(** X9. A rate limit is invisible once a retry succeeds: when the first
    [k] attempts are answered with HTTP 429 and attempt [k], still within
    [MAX_RETRIES], returns audio, [synthesize_speech] returns that audio
    after [k + 1] requests and the pauses [RETRY_BASE_DELAY * 2^0], ...,
    [RETRY_BASE_DELAY * 2^(k-1)]. *)
Theorem synthesize_speech_recovers (server : str -> nat -> response)
    (text : str) (config : SynthesisConfig) (k : nat) (audio_data : bytes) :
  (k < Compressed.MAX_RETRIES)%nat ->
  (forall attempt, (attempt < k)%nat ->
     server text attempt = Failed (HTTPError 429)) ->
  server text k = Audio audio_data ->
  exists w,
    Compressed.synthesize_speech server text config new_world
    = (Ok audio_data, w) /\
    requests_sent w = S k /\
    pauses (trace w) = map backoff (seq 0 k).
Proof.
  intros Hk Hbefore Hat.
  unfold Compressed.synthesize_speech, Compressed.MAX_RETRIES in *.
  destruct k as [|[|[|k]]]; [| | |lia].
  - cbn [seq Compressed.retry_loop post requests_sent new_world].
    rewrite Hat. eexists. split; [reflexivity|]. by vm_compute.
  - cbn [seq Compressed.retry_loop post requests_sent new_world].
    rewrite (Hbefore 0%nat) by lia. simpl.
    rewrite Hat. eexists. split; [reflexivity|]. repeat split.
  - cbn [seq Compressed.retry_loop post requests_sent new_world].
    rewrite (Hbefore 0%nat) by lia. simpl.
    rewrite (Hbefore 1%nat) by lia. simpl.
    rewrite Hat. eexists. split; [reflexivity|]. repeat split.
Qed.

Lemma synthesize_speech_recovers_witness :
  exists w,
    Compressed.synthesize_speech
      (fun t n => match n with
                | O | 1%nat => Failed (HTTPError 429)
                | _ => Audio [Byte.x2a]
                end)
      (of_string "One.") demo_config new_world
    = (Ok [Byte.x2a], w) /\
    requests_sent w = 3%nat /\
    pauses (trace w) = [1%float; 2%float].
Proof.
  apply (synthesize_speech_recovers _ (of_string "One.") demo_config 2).
  - vm_compute. lia.
  - intros [|[|n]] Hn; [reflexivity | reflexivity | lia].
  - reflexivity.
Defined.

(** What one pass of the retry loop can end in. *)
Lemma retry_step (server : str -> nat -> response) (text : str) (attempt : nat)
    (rest : list nat) (w : world) :
  let w1 := mkWorld (S (requests_sent w)) (trace w ++ [Post text]) in
  (exists audio_data,
     Compressed.retry_loop server text (attempt :: rest) w
     = (Ok audio_data, w1)) \/
  Compressed.retry_loop server text (attempt :: rest) w = (Raise KeyError, w1) \/
  (exists e,
     Compressed.retry_loop server text (attempt :: rest) w
     = (Raise (RequestException e), w1)) \/
  (attempt <> 2%nat /\
   Compressed.retry_loop server text (attempt :: rest) w
   = Compressed.retry_loop server text rest (sleep (backoff attempt) w1)).
Proof.
  intros w1. cbn [Compressed.retry_loop post].
  destruct (server text (requests_sent w)) as [a|e|].
  - left. by exists a.
  - destruct (bool_decide (response_status e = Some 429)); cbn [andb].
    + destruct (Nat.eqb_spec attempt (Compressed.MAX_RETRIES - 1)) as [->|Hne];
        cbn [negb].
      * right. right. left. by exists e.
      * right. right. right. split; [exact Hne | reflexivity].
    + right. right. left. by exists e.
  - right. by left.
Qed.

(** X10. Whatever the service answers, [synthesize_speech] sends at least
    one and at most [MAX_RETRIES] requests, pauses exactly between two
    consecutive requests, for [RETRY_BASE_DELAY * 2^attempt] after attempt
    number [attempt], and never sleeps after its last request; the
    [RuntimeError] after the loop is never raised. *)
Theorem synthesize_speech_bounded (server : str -> nat -> response)
    (text : str) (config : SynthesisConfig) :
  exists r w,
    Compressed.synthesize_speech server text config new_world = (r, w) /\
    (1 <= requests_sent w <= Compressed.MAX_RETRIES)%nat /\
    pauses (trace w) = map backoff (seq 0 (requests_sent w - 1)) /\
    last (trace w) = Some (Post text) /\
    r <> Raise RuntimeError.
Proof.
  unfold Compressed.synthesize_speech, Compressed.MAX_RETRIES.
  cbn [seq].
  assert (Hend : forall (r : result bytes) w,
    (1 <= requests_sent w <= 3)%nat ->
    pauses (trace w) = map backoff (seq 0 (requests_sent w - 1)) ->
    last (trace w) = Some (Post text) ->
    r <> Raise RuntimeError ->
    exists r' w', (r, w) = (r', w') /\
      (1 <= requests_sent w' <= 3)%nat /\
      pauses (trace w') = map backoff (seq 0 (requests_sent w' - 1)) /\
      last (trace w') = Some (Post text) /\
      r' <> Raise RuntimeError).
  { intros r w ? ? ? ?. by exists r, w. }
  destruct (retry_step server text 0 [1%nat; 2%nat] new_world)
    as [(a & ->)|[->|[(e & ->)|[_ ->]]]];
    [apply Hend; cbn; (lia || done) ..|].
  destruct (retry_step server text 1 [2%nat]
              (sleep (backoff 0)
                 (mkWorld (S (requests_sent new_world))
                    (trace new_world ++ [Post text]))))
    as [(a & ->)|[->|[(e & ->)|[_ ->]]]];
    [apply Hend; cbn; (lia || done) ..|].
  match goal with
  | |- context [Compressed.retry_loop server text [2%nat] ?w] =>
      destruct (retry_step server text 2 [] w)
        as [(a & ->)|[->|[(e & ->)|[Hne _]]]]
  end; [apply Hend; cbn; (lia || done) ..|done].
Qed.

(** X11. Only HTTP 429 is retried: a request that fails in any other way,
    with another HTTP status or without a response, is re-raised at once,
    at whichever attempt it occurs, with no pause after it. *)
Theorem synthesize_speech_other_failure (server : str -> nat -> response)
    (text : str) (config : SynthesisConfig) (k : nat) (e : request_exception) :
  (k < Compressed.MAX_RETRIES)%nat ->
  (forall attempt, (attempt < k)%nat ->
     server text attempt = Failed (HTTPError 429)) ->
  server text k = Failed e ->
  response_status e <> Some 429 ->
  exists w,
    Compressed.synthesize_speech server text config new_world
    = (Raise (RequestException e), w) /\
    requests_sent w = S k /\
    pauses (trace w) = map backoff (seq 0 k) /\
    last (trace w) = Some (Post text).
Proof.
  intros Hk Hbefore Hat Hstatus.
  assert (Hb : bool_decide (response_status e = Some 429) = false)
    by (by apply bool_decide_eq_false).
  unfold Compressed.synthesize_speech, Compressed.MAX_RETRIES in *.
  destruct k as [|[|[|k]]]; [| | |lia].
  - cbn [seq Compressed.retry_loop post requests_sent new_world].
    rewrite Hat, Hb. eexists. split; [reflexivity|]. by vm_compute.
  - cbn [seq Compressed.retry_loop post requests_sent new_world].
    rewrite (Hbefore 0%nat) by lia. simpl.
    rewrite Hat, Hb. eexists. split; [reflexivity|]. repeat split.
  - cbn [seq Compressed.retry_loop post requests_sent new_world].
    rewrite (Hbefore 0%nat) by lia. simpl.
    rewrite (Hbefore 1%nat) by lia. simpl.
    rewrite Hat, Hb. eexists. split; [reflexivity|]. repeat split.
Qed.

Lemma synthesize_speech_other_failure_witness :
  exists w,
    Compressed.synthesize_speech
      (fun t n => match n with
                | O => Failed (HTTPError 429)
                | _ => Failed (HTTPError 500)
                end)
      (of_string "One.") demo_config new_world
    = (Raise (RequestException (HTTPError 500)), w) /\
    requests_sent w = 2%nat.
Proof.
  destruct (synthesize_speech_other_failure
              (fun t n => match n with
                        | O => Failed (HTTPError 429)
                        | _ => Failed (HTTPError 500)
                        end)
              (of_string "One.") demo_config 1 (HTTPError 500))
    as (w & H & Hn & _).
  - vm_compute. lia.
  - intros [|n] Hn; [reflexivity | lia].
  - reflexivity.
  - discriminate.
  - exists w. split; [exact H | exact Hn].
Defined.

(** * Further properties of the reassembly *)

Lemma combine_loop_fields format_time chunks : forall rest n sps t raws,
  (1 <= n)%nat -> (n + length rest <= length chunks)%nat ->
  exists new,
    LongInput.combine_loop format_time (enumerate_from n rest) chunks sps t raws
    = Ok (sps ++ new, elapsed t rest,
          raws ++ map LongInput.extract_raw_audio rest) /\
    length new = length rest /\
    forall (k : nat) sp, new !! k = Some sp ->
      exists chunk,
        chunks !! (n + k)%nat = Some chunk /\
        LongInput.splice_index sp = (n + k)%nat /\
        LongInput.chunk_start_char sp = start_char chunk /\
        LongInput.chunk_end_char sp = end_char chunk /\
        LongInput.text_preview sp
        = slice_to (text chunk) 50 ++ of_string "..." /\
        LongInput.formatted_time sp = format_time (LongInput.timestamp sp).
Proof.
  induction rest as [|b rest IH]; intros n sps t raws Hn Hlen.
  - exists []. simpl. rewrite !app_nil_r. done.
  - simpl in Hlen. cbn [enumerate_from LongInput.combine_loop].
    rewrite calculate_duration_ok. cbn [mbind result_bind].
    destruct (Nat.ltb_spec 0 n) as [_|?]; [|lia].
    unfold getitem.
    destruct (chunks !! n) as [c|] eqn:Ec.
    2:{ apply lookup_ge_None in Ec. lia. }
    cbn [mbind result_bind].
    edestruct (IH (S n)) as (new & -> & Hl & Hsp); [lia | lia |].
    eexists (_ :: new). split; [|split].
    + simpl. by rewrite <- !app_assoc.
    + simpl. by rewrite Hl.
    + intros [|k] sp Hk; simpl in Hk.
      * inversion Hk; subst. exists c. rewrite Nat.add_0_r. done.
      * apply Hsp in Hk. destruct Hk as (chunk & Hc & Hk).
        exists chunk. replace (n + S k)%nat with (S n + k)%nat by lia. done.
Qed.

Lemma combine_loop_index_error format_time chunks : forall rest n sps t raws,
  (1 <= n)%nat -> rest <> [] -> (length chunks < n + length rest)%nat ->
  LongInput.combine_loop format_time (enumerate_from n rest) chunks sps t raws
  = Raise IndexError.
Proof.
  induction rest as [|b rest IH]; intros n sps t raws Hn Hne Hlen; [done|].
  simpl in Hlen. cbn [enumerate_from LongInput.combine_loop].
  rewrite calculate_duration_ok. cbn [mbind result_bind].
  destruct (Nat.ltb_spec 0 n) as [_|?]; [|lia].
  unfold getitem. destruct (chunks !! n) as [c|] eqn:Ec; [|done].
  cbn [mbind result_bind]. apply lookup_lt_Some in Ec.
  apply IH; [lia | | lia]. intros ->. simpl in Hlen. lia.
Qed.

(** X12. The chunk list is read only for the buffers after the first:
    [combine_audio_buffers] succeeds when there is at most one buffer or
    at least as many chunks as buffers, and raises [IndexError] when there
    are two buffers or more and fewer chunks than buffers. *)
Theorem combine_audio_buffers_chunk_list format_time
    (audio_buffers : list bytes) (chunks : list TextChunk) :
  ((length audio_buffers <= 1 \/ length audio_buffers <= length chunks)%nat ->
   exists splice_points,
     LongInput.combine_audio_buffers format_time audio_buffers chunks
     = Ok (concat (map LongInput.extract_raw_audio audio_buffers),
           splice_points, elapsed 0 audio_buffers)) /\
  ((2 <= length audio_buffers)%nat ->
   (length chunks < length audio_buffers)%nat ->
   LongInput.combine_audio_buffers format_time audio_buffers chunks
   = Raise IndexError).
Proof.
  unfold LongInput.combine_audio_buffers, enumerate. split.
  - intros Hlen. destruct audio_buffers as [|b rest]; [by exists []|].
    cbn [enumerate_from LongInput.combine_loop].
    rewrite calculate_duration_ok. cbn [mbind result_bind Nat.ltb Nat.leb].
    destruct rest as [|b' rest]; [by exists []|].
    edestruct (combine_loop_fields format_time chunks (b' :: rest) 1)
      as (new & -> & _); [lia | simpl in *; lia |].
    by exists new.
  - intros Hn Hlen. destruct audio_buffers as [|b rest]; [simpl in Hn; lia|].
    cbn [enumerate_from LongInput.combine_loop].
    rewrite calculate_duration_ok. cbn [mbind result_bind Nat.ltb Nat.leb].
    rewrite combine_loop_index_error; [done | lia | | simpl in *; lia].
    intros ->. simpl in Hn. lia.
Qed.

(** X13. Each splice point describes the chunk that starts there: in every
    report that [combine_audio_buffers] returns, the [k]-th splice point
    carries the offsets of chunk [k + 1], the first 50 characters of its
    text followed by three dots, and the rendering of its own timestamp. *)
Theorem combine_audio_buffers_report format_time
    (audio_buffers : list bytes) (chunks : list TextChunk)
    combined_audio splice_points total_duration :
  LongInput.combine_audio_buffers format_time audio_buffers chunks
  = Ok (combined_audio, splice_points, total_duration) ->
  forall (k : nat) sp, splice_points !! k = Some sp ->
    exists chunk,
      chunks !! S k = Some chunk /\
      LongInput.chunk_start_char sp = start_char chunk /\
      LongInput.chunk_end_char sp = end_char chunk /\
      LongInput.text_preview sp = slice_to (text chunk) 50 ++ of_string "..." /\
      len (LongInput.text_preview sp) <= 53 /\
      LongInput.formatted_time sp = format_time (LongInput.timestamp sp).
Proof.
  unfold LongInput.combine_audio_buffers, enumerate.
  destruct audio_buffers as [|b rest]; [by intros [= <- <- <-] [|k] sp|].
  cbn [enumerate_from LongInput.combine_loop].
  rewrite calculate_duration_ok. cbn [mbind result_bind Nat.ltb Nat.leb].
  destruct rest as [|b' rest]; [by intros [= <- <- <-] [|k] sp|].
  destruct (Nat.le_gt_cases (1 + length (b' :: rest)) (length chunks))
    as [Hle|Hgt].
  - edestruct (combine_loop_fields format_time chunks (b' :: rest) 1)
      as (new & -> & _ & Hsp); [lia | lia |].
    cbn [mbind result_bind]. intros [= <- <- <-] k sp Hk.
    destruct (Hsp k sp Hk) as (chunk & Hc & _ & Hs & He & Hp & Hf).
    exists chunk. repeat split; [done | done | done | done | | done].
    rewrite Hp. unfold len. rewrite length_app, slice_to_take by lia.
    rewrite length_take. change (length (of_string "...")) with 3%nat.
    change (Z.to_nat 50) with 50%nat. lia.
  - rewrite combine_loop_index_error; [done | lia | done | lia].
Qed.

Lemma combine_audio_buffers_report_witness :
  exists chunk,
    [chunk_a; chunk_b] !! 1%nat = Some chunk /\
    LongInput.chunk_start_char
      (LongInput.mkSplicePoint 1 (2 / 96000)%float EmptyString 5 9
         (of_string "Two...."))
    = start_char chunk.
Proof.
  destruct (combine_audio_buffers_report (fun _ => EmptyString)
              [[Byte.x01; Byte.x02]; [Byte.x03; Byte.x04]] [chunk_a; chunk_b]
              [Byte.x01; Byte.x02; Byte.x03; Byte.x04]
              [LongInput.mkSplicePoint 1 (2 / 96000)%float EmptyString 5 9
                 (of_string "Two....")]
              (2 / 96000 + 2 / 96000)%float
              ltac:(by vm_compute) 0%nat _ eq_refl)
    as (chunk & Hc & Hs & _).
  exists chunk. split; [exact Hc | exact Hs].
Defined.

(** X14. Header stripping drops a 44-byte RIFF header and nothing else:
    the raw audio of a buffer is the buffer without its first 44 bytes
    when the buffer is longer than 44 bytes and starts with [RIFF], and
    the buffer itself in every other case: a buffer of 44 bytes or fewer
    is kept whole, and so is one that does not start with [RIFF]; the raw
    audio of a non-empty buffer is never empty. *)
Theorem extract_raw_audio_header (audio_data : bytes) :
  (exists header,
     audio_data = header ++ LongInput.extract_raw_audio audio_data /\
     (header = [] \/
      length header = 44%nat /\ take 4 header = LongInput.RIFF)) /\
  (44 < len audio_data -> take 4 audio_data = LongInput.RIFF ->
   LongInput.extract_raw_audio audio_data = drop 44 audio_data /\
   len (LongInput.extract_raw_audio audio_data) = len audio_data - 44) /\
  (len audio_data <= 44 -> LongInput.extract_raw_audio audio_data = audio_data) /\
  (take 4 audio_data <> LongInput.RIFF ->
   LongInput.extract_raw_audio audio_data = audio_data) /\
  (audio_data <> [] -> LongInput.extract_raw_audio audio_data <> []).
Proof.
  unfold LongInput.extract_raw_audio.
  rewrite slice_to_take, slice_from_drop by lia.
  change (Z.to_nat 4) with 4%nat. change (Z.to_nat 44) with 44%nat.
  destruct (Z.ltb_spec 44 (len audio_data)) as [Hlong|Hshort];
    [destruct (bool_decide_reflect (take 4 audio_data = LongInput.RIFF))
       as [Hriff|Hother]|];
    cbn [andb].
  - unfold len in Hlong. split; [|split; [|split; [|split]]].
    + exists (take 44 audio_data). split; [by rewrite take_drop|].
      right. split; [rewrite length_take; lia|].
      rewrite take_take. done.
    + intros _ _. split; [done|]. unfold len. rewrite length_drop. lia.
    + unfold len. lia.
    + done.
    + intros _ H. apply (f_equal length) in H. rewrite length_drop in H.
      simpl in H. lia.
  - split; [by exists []; auto|]. split; [done | done].
  - split; [by exists []; auto|]. split; [lia | done].
Qed.

(** * The two [main] functions *)

Lemma slots_filled (bufs : list (option bytes)) (n : nat) (audio : nat -> bytes) :
  length bufs = n ->
  (forall i : nat, (i < n)%nat -> bufs !! i = Some (Some (audio i))) ->
  bufs = map (fun i => Some (audio i)) (seq 0 n).
Proof.
  intros Hlen Hslot. apply list_eq. intros i.
  destruct (Nat.lt_ge_cases i n) as [Hlt|Hge].
  - rewrite Hslot by done.
    change (map (fun i => Some (audio i)) (seq 0 n))
      with ((fun i => Some (audio i)) <$> seq 0 n).
    rewrite list_lookup_fmap, lookup_seq_lt by done. done.
  - rewrite (proj2 (lookup_ge_None bufs i)) by lia.
    symmetry. apply lookup_ge_None. rewrite length_map, length_seq. lia.
Qed.

Lemma join_filled (l : list nat) (audio : nat -> bytes) :
  Compressed.combine_audio_buffers (map (fun i => Some (audio i)) l)
  = Ok (concat (map audio l)).
Proof.
  induction l as [|i l IH]; [done|]. simpl. rewrite IH. done.
Qed.

Lemma typed_filled (l : list nat) (audio : nat -> bytes) :
  LongInput.typed_buffers (map (fun i => Some (audio i)) l)
  = Ok (map audio l).
Proof.
  induction l as [|i l IH]; [done|]. simpl. rewrite IH. done.
Qed.

Lemma dispatch_filled outcome chunks (completed : list future)
    (audio : nat -> bytes) :
  completed ≡ₚ futures_of outcome chunks ->
  (forall (i : nat) chunk, chunks !! i = Some chunk ->
     outcome i chunk = Ok (audio i)) ->
  collect completed (replicate (length chunks) None)
  = Ok (map (fun i => Some (audio i)) (seq 0 (length chunks))).
Proof.
  intros Hperm Hok.
  destruct (dispatch_aligned outcome chunks completed Hperm)
    as (bufs & -> & Hlen & Hslot).
  { intros i chunk Hi. exists (audio i). by apply Hok. }
  f_equal. apply slots_filled; [done|]. intros i Hi.
  destruct (lookup_lt_is_Some_2 chunks i Hi) as [chunk Hc].
  destruct (Hslot i chunk Hc) as (a & Ha & ->).
  rewrite (Hok i chunk Hc) in Ha. by inversion Ha.
Qed.

(** X15. The natural-boundary script end to end: with a key, a readable
    input file that is not empty, and every synthesis call succeeding,
    [main] ends with status 0 and saves the audio of the chunks joined in
    chunk order, whatever the order in which the calls complete. *)
Theorem compressed_main_success (api_key : string) (doc : str)
    (service : nat -> str -> nat -> response)
    (as_completed : list future -> list future)
    (chunks : list TextChunk) (audio : nat -> bytes) :
  api_key <> EmptyString -> doc <> [] ->
  (forall l, as_completed l ≡ₚ l) ->
  Compressed.chunk_text doc = Some chunks ->
  (forall (i : nat) chunk, chunks !! i = Some chunk ->
     fst (Compressed.synthesize_speech (service i) (text chunk)
            (mkSynthesisConfig "Edward" "inworld-tts-1.5-max" api_key "MP3")
            new_world) = Ok (audio i)) ->
  Compressed.main (Some api_key) (Some doc) service as_completed
  = Some (0, Some (concat (map audio (seq 0 (length chunks))))).
Proof.
  intros Hkey Hdoc Hperm Hchunks Hok. unfold Compressed.main.
  assert (Compressed.check_api_key (Some api_key) = Some api_key) as ->
    by (by destruct api_key).
  unfold Compressed.read_input_text.
  destruct doc as [|c doc]; [done|]. cbn [truthy]. rewrite Hchunks.
  cbn [mbind option_bind]. f_equal.
  unfold Compressed.main_try. rewrite Compressed_dispatch.
  rewrite (dispatch_filled _ chunks _ audio (Hperm _) Hok).
  cbn [mbind result_bind]. by rewrite join_filled.
Qed.

Lemma compressed_main_success_witness :
  Compressed.main (Some "key"%string) (Some (of_string "One. Two."))
    service_ok reverse
  = Some (0, Some [Byte.x00]).
Proof.
  apply (compressed_main_success "key" (of_string "One. Two.") service_ok
           reverse [mkTextChunk (of_string "One. Two.") 0 9]
           (fun i => [match i with O => Byte.x00 | _ => Byte.x01 end])).
  - discriminate.
  - discriminate.
  - apply reverse_Permutation.
  - by vm_compute.
  - intros i chunk _. reflexivity.
Defined.

(** X16. The exit status of the natural-boundary script tells the whole
    story: [main] ends with status 0 and saved audio, or with status 1
    and nothing saved; and status 0 means that the key was set, the input
    file was read and not empty, and every chunk of it was synthesized
    with success. *)
Theorem compressed_main_status (INWORLD_API_KEY : option string)
    (input_file : option str) (service : nat -> str -> nat -> response)
    (as_completed : list future -> list future) :
  (forall l, as_completed l ≡ₚ l) ->
  exists status saved,
    Compressed.main INWORLD_API_KEY input_file service as_completed
    = Some (status, saved) /\
    (status = 0 /\ (exists audio, saved = Some audio)
     \/ status = 1 /\ saved = None) /\
    (status = 0 ->
     exists api_key doc chunks,
       INWORLD_API_KEY = Some api_key /\ api_key <> EmptyString /\
       input_file = Some doc /\ doc <> [] /\
       Compressed.chunk_text doc = Some chunks /\
       forall (i : nat) chunk, chunks !! i = Some chunk ->
         exists a,
           fst (Compressed.synthesize_speech (service i) (text chunk)
                  (mkSynthesisConfig "Edward" "inworld-tts-1.5-max" api_key
                     "MP3") new_world) = Ok a).
Proof.
  intros Hperm. unfold Compressed.main, Compressed.read_input_text.
  assert (Hfail : exists status saved,
    Some (1, @None bytes) = Some (status, saved) /\
    (status = 0 /\ (exists audio, saved = Some audio)
     \/ status = 1 /\ saved = None) /\
    (status = 0 ->
     exists api_key doc chunks,
       INWORLD_API_KEY = Some api_key /\ api_key <> EmptyString /\
       input_file = Some doc /\ doc <> [] /\
       Compressed.chunk_text doc = Some chunks /\
       forall (i : nat) chunk, chunks !! i = Some chunk ->
         exists a,
           fst (Compressed.synthesize_speech (service i) (text chunk)
                  (mkSynthesisConfig "Edward" "inworld-tts-1.5-max" api_key
                     "MP3") new_world) = Ok a)).
  { exists 1, None. split; [done|]. split; [by right | done]. }
  destruct INWORLD_API_KEY as [api_key|]; [|exact Hfail].
  destruct (Compressed.check_api_key (Some api_key)) as [k|] eqn:Ek;
    [|exact Hfail].
  assert (k = api_key /\ api_key <> EmptyString) as [-> Hkey].
  { destruct api_key; [done|]. simpl in Ek. by inversion Ek. }
  destruct input_file as [doc|]; [|exact Hfail].
  destruct (truthy doc) eqn:Et; [|exact Hfail].
  apply truthy_true in Et.
  destruct (Compressed_chunk_text_tiles doc) as (chunks & Hc & _).
  rewrite Hc. cbn [mbind option_bind].
  unfold Compressed.main_try.
  destruct (Compressed.synthesize_all_chunks service as_completed chunks _)
    as [bufs|e] eqn:Eall; cbn [mbind result_bind];
    [destruct (Compressed.combine_audio_buffers bufs) as [audio|e] eqn:Ej|].
  - exists 0, (Some audio). split; [done|]. split; [left; by eauto|].
    intros _. exists api_key, doc, chunks. repeat split; try done.
    rewrite Compressed_dispatch in Eall.
    apply (dispatch_returned _ chunks _ bufs (Hperm _) Eall).
  - exists 1, None. split; [done|]. split; [by right | done].
  - exists 1, None. split; [done|]. split; [by right | done].
Qed.

Lemma compressed_main_status_witness :
  exists status saved,
    Compressed.main (Some "key"%string) (Some (of_string "One."))
      always_rate_limited_service reverse
    = Some (status, saved) /\
    (status = 0 /\ (exists audio, saved = Some audio)
     \/ status = 1 /\ saved = None).
Proof.
  destruct (compressed_main_status (Some "key"%string)
              (Some (of_string "One.")) always_rate_limited_service reverse
              reverse_Permutation)
    as (status & saved & H & Hs & _).
  exists status, saved. split; [exact H | exact Hs].
Defined.

Lemma tiles_blank max_size doc cs :
  tiles max_size doc 0 cs -> blank doc -> cs = [].
Proof.
  intros Ht Hb. pose proof (tiles_squeeze _ _ 0 _ Ht ltac:(lia)) as Hs.
  change (drop (Z.to_nat 0) doc) with doc in Hs.
  rewrite (squeeze_blank doc Hb) in Hs.
  destruct cs as [|c cs]; [done|]. exfalso.
  pose proof (tiles_chunk_ok _ _ 0 _ ltac:(lia) Ht) as Hok.
  apply Forall_inv in Hok. destruct Hok as (_ & _ & _ & _ & Htext & Hne).
  rewrite Htext in Hne. destruct (strip_ends _ Hne) as [(f & Hf & Hns) _].
  rewrite <- Htext in Hf. simpl in Hs. unfold squeeze in Hs.
  rewrite filter_app in Hs. apply app_eq_nil in Hs. destruct Hs as [Hs _].
  destruct (text c) as [|x t]; [done|]. simpl in Hf. inversion Hf; subst.
  rewrite filter_cons_True in Hs by done. done.
Qed.

(** X17. The sentence-first script end to end: with a key, a readable
    input file holding something else than whitespace, and every
    synthesis call succeeding, [main] ends with status 0 and writes the
    raw audio of the chunks, each without its WAV header, joined in chunk
    order, whatever the order in which the calls complete. *)
Theorem long_input_main_success (format_time : float -> string)
    (api_key : string) (doc : str)
    (service : nat -> str -> nat -> response)
    (as_completed : list future -> list future)
    (chunks : list TextChunk) (audio : nat -> bytes) :
  api_key <> EmptyString -> ~ blank doc ->
  (forall l, as_completed l ≡ₚ l) ->
  LongInput.chunk_text doc = Some chunks ->
  (forall (i : nat) chunk, chunks !! i = Some chunk ->
     fst (LongInput.synthesize_speech (service i) (text chunk) new_world)
     = Ok (audio i)) ->
  LongInput.main format_time (Some api_key) (Some doc) service as_completed
  = Some (0, Some (concat (map (fun i => LongInput.extract_raw_audio (audio i))
                             (seq 0 (length chunks))))).
Proof.
  intros Hkey Hdoc Hperm Hchunks Hok. unfold LongInput.main.
  assert (LongInput.check_api_key (Some api_key) = Some api_key) as ->
    by (by destruct api_key).
  rewrite Hchunks. cbn [mbind option_bind]. f_equal.
  assert (Hne : chunks <> []).
  { destruct (LongInput_chunk_text_tiles doc) as (chunks' & Hc & Ht).
    assert (chunks' = chunks) as -> by congruence.
    by eapply tiles_nonempty. }
  unfold LongInput.main_try. rewrite LongInput_dispatch by done.
  rewrite (dispatch_filled _ chunks _ audio (Hperm _) Hok).
  cbn [mbind result_bind]. rewrite typed_filled. cbn [mbind result_bind].
  destruct (combine_audio_buffers_spec format_time
              (map audio (seq 0 (length chunks))) chunks)
    as (sps & -> & _).
  { by rewrite length_map, length_seq. }
  by rewrite map_map.
Qed.

Lemma long_input_main_success_witness :
  LongInput.main (fun _ => EmptyString) (Some "key"%string)
    (Some (of_string "One. Two.")) service_ok reverse
  = Some (0, Some [Byte.x00]).
Proof.
  apply (long_input_main_success (fun _ => EmptyString) "key"
           (of_string "One. Two.") service_ok reverse
           [mkTextChunk (of_string "One. Two.") 0 9]
           (fun i => [match i with O => Byte.x00 | _ => Byte.x01 end])).
  - discriminate.
  - intros H. apply Forall_inv in H. by vm_compute in H.
  - apply reverse_Permutation.
  - by vm_compute.
  - intros i chunk _. reflexivity.
Defined.

(** X18. A document of whitespace only: the sentence-first script fails
    on it with status 1, since it creates its executor with as many
    workers as chunks and there is none, although no request failed;
    the natural-boundary script ends with status 0 and saves an empty
    file, unless the document is empty, which it refuses with status 1. *)
Theorem main_blank_document (format_time : float -> string)
    (api_key : string) (doc : str)
    (service : nat -> str -> nat -> response)
    (as_completed : list future -> list future) :
  api_key <> EmptyString -> blank doc ->
  (forall l, as_completed l ≡ₚ l) ->
  LongInput.main format_time (Some api_key) (Some doc) service as_completed
  = Some (1, None) /\
  (doc <> [] ->
   Compressed.main (Some api_key) (Some doc) service as_completed
   = Some (0, Some [])) /\
  (doc = [] ->
   Compressed.main (Some api_key) (Some doc) service as_completed
   = Some (1, None)).
Proof.
  intros Hkey Hblank Hperm.
  unfold LongInput.main, Compressed.main, Compressed.read_input_text.
  assert (LongInput.check_api_key (Some api_key) = Some api_key) as ->
    by (by destruct api_key).
  assert (Compressed.check_api_key (Some api_key) = Some api_key) as ->
    by (by destruct api_key).
  destruct (LongInput_chunk_text_tiles doc) as (chunks & -> & Ht).
  destruct (Compressed_chunk_text_tiles doc) as (chunks' & -> & Ht').
  rewrite (tiles_blank _ _ _ Ht Hblank), (tiles_blank _ _ _ Ht' Hblank).
  split; [done|]. split.
  - intros Hne. destruct doc; [done|]. cbn [truthy mbind option_bind].
    unfold Compressed.main_try, Compressed.synthesize_all_chunks. simpl.
    by rewrite (proj1 (Permutation_nil_r _) (Hperm [])).
  - by intros ->.
Qed.

Lemma main_blank_document_witness :
  LongInput.main (fun _ => EmptyString) (Some "key"%string)
    (Some (of_string "  ")) service_ok reverse
  = Some (1, None) /\
  Compressed.main (Some "key"%string) (Some (of_string "  ")) service_ok reverse
  = Some (0, Some []).
Proof.
  destruct (main_blank_document (fun _ => EmptyString) "key" (of_string "  ")
              service_ok reverse) as (H1 & H2 & _).
  - discriminate.
  - by repeat constructor.
  - apply reverse_Permutation.
  - split; [exact H1 | apply H2; discriminate].
Defined.

(** X19. The exit status of the sentence-first script: [main] ends with
    status 0 and written audio, or with status 1 and nothing written; and
    status 0 means that the key was set, the input file was read and
    holds something else than whitespace, and every chunk of it was
    synthesized with success. *)
Theorem long_input_main_status (format_time : float -> string)
    (INWORLD_API_KEY : option string) (input_file : option str)
    (service : nat -> str -> nat -> response)
    (as_completed : list future -> list future) :
  (forall l, as_completed l ≡ₚ l) ->
  exists status saved,
    LongInput.main format_time INWORLD_API_KEY input_file service as_completed
    = Some (status, saved) /\
    (status = 0 /\ (exists audio, saved = Some audio)
     \/ status = 1 /\ saved = None) /\
    (status = 0 ->
     exists api_key doc chunks,
       INWORLD_API_KEY = Some api_key /\ api_key <> EmptyString /\
       input_file = Some doc /\ ~ blank doc /\
       LongInput.chunk_text doc = Some chunks /\
       forall (i : nat) chunk, chunks !! i = Some chunk ->
         exists a,
           fst (LongInput.synthesize_speech (service i) (text chunk)
                  new_world) = Ok a).
Proof.
  intros Hperm. unfold LongInput.main.
  assert (Hfail : exists status saved,
    Some (1, @None bytes) = Some (status, saved) /\
    (status = 0 /\ (exists audio, saved = Some audio)
     \/ status = 1 /\ saved = None) /\
    (status = 0 ->
     exists api_key doc chunks,
       INWORLD_API_KEY = Some api_key /\ api_key <> EmptyString /\
       input_file = Some doc /\ ~ blank doc /\
       LongInput.chunk_text doc = Some chunks /\
       forall (i : nat) chunk, chunks !! i = Some chunk ->
         exists a,
           fst (LongInput.synthesize_speech (service i) (text chunk)
                  new_world) = Ok a)).
  { exists 1, None. split; [done|]. split; [by right | done]. }
  destruct INWORLD_API_KEY as [api_key|]; [|exact Hfail].
  destruct (LongInput.check_api_key (Some api_key)) as [k|] eqn:Ek;
    [|exact Hfail].
  assert (k = api_key /\ api_key <> EmptyString) as [-> Hkey].
  { destruct api_key; [done|]. simpl in Ek. by inversion Ek. }
  destruct input_file as [doc|]; [|exact Hfail].
  destruct (LongInput_chunk_text_tiles doc) as (chunks & Hc & Ht).
  rewrite Hc. cbn [mbind option_bind].
  unfold LongInput.main_try.
  destruct (LongInput.synthesize_in_parallel service as_completed chunks)
    as [bufs|e] eqn:Eall; cbn [mbind result_bind]; [|exact Hfail].
  pose proof (LongInput_dispatch_returned _ _ _ _ Eall) as Hne.
  destruct (LongInput.typed_buffers bufs) as [buffers|e];
    cbn [mbind result_bind]; [|exact Hfail].
  destruct (LongInput.combine_audio_buffers format_time buffers chunks)
    as [[[audio sps] total]|e]; [|exact Hfail].
  exists 0, (Some audio). split; [done|]. split; [left; by eauto|].
  intros _. exists api_key, doc, chunks. repeat split; try done.
  - intros Hb. apply Hne. exact (tiles_blank _ _ _ Ht Hb).
  - rewrite LongInput_dispatch in Eall by done.
    apply (dispatch_returned _ chunks _ bufs (Hperm _) Eall).
Qed.

Lemma long_input_main_status_witness :
  exists status saved,
    LongInput.main (fun _ => EmptyString) (Some "key"%string)
      (Some (of_string "One.")) always_rate_limited_service reverse
    = Some (status, saved) /\
    (status = 0 /\ (exists audio, saved = Some audio)
     \/ status = 1 /\ saved = None).
Proof.
  destruct (long_input_main_status (fun _ => EmptyString) (Some "key"%string)
              (Some (of_string "One.")) always_rate_limited_service reverse
              reverse_Permutation)
    as (status & saved & H & Hs & _).
  exists status, saved. split; [exact H | exact Hs].
Defined.

Lemma strip_length s : (length (strip s) <= length s)%nat.
Proof.
  destruct (strip_split s) as (l & r & Hs & _).
  rewrite Hs at 2. rewrite !length_app. lia.
Qed.

Lemma tiles_request_size max_size doc cs :
  tiles max_size doc 0 cs ->
  Forall (fun c => 1 <= len (text c) <= end_char c - start_char c
                   /\ len (text c) <= max_size) cs.
Proof.
  intros Ht. eapply Forall_impl; [by apply (tiles_chunk_ok _ _ 0 _ ltac:(lia) Ht)|].
  intros c (H0 & Hlt & Hend & Hmax & Htext & Hne). simpl.
  assert (len (text c) <= end_char c - start_char c).
  { rewrite Htext. unfold len. pose proof (strip_length
      (substr doc (start_char c) (end_char c))) as Hl.
    unfold substr in Hl at 2. rewrite length_take in Hl. lia. }
  assert (1 <= len (text c)).
  { unfold len. destruct (text c); [done | simpl; lia]. }
  lia.
Qed.

(** X20. No request outgrows the service: the text of every chunk, which
    is what one request carries, has at least one character, no more
    characters than the range of the chunk, and at most [MAX_CHUNK_SIZE]
    of them, below the limit of 2000 that the scripts mention. *)
Theorem chunk_text_request_size (doc : str) :
  (exists chunks, LongInput.chunk_text doc = Some chunks /\
     Forall (fun c => 1 <= len (text c) <= end_char c - start_char c
                      /\ len (text c) <= LongInput.MAX_CHUNK_SIZE
                      /\ len (text c) < 2000) chunks) /\
  (exists chunks, Compressed.chunk_text doc = Some chunks /\
     Forall (fun c => 1 <= len (text c) <= end_char c - start_char c
                      /\ len (text c) <= Compressed.MAX_CHUNK_SIZE
                      /\ len (text c) < 2000) chunks).
Proof.
  split.
  - destruct (LongInput_chunk_text_tiles doc) as (chunks & Hc & Ht).
    exists chunks. split; [done|].
    eapply Forall_impl; [by apply (tiles_request_size _ _ _ Ht)|].
    intros c. unfold LongInput.MAX_CHUNK_SIZE. simpl. lia.
  - destruct (Compressed_chunk_text_tiles doc) as (chunks & Hc & Ht).
    exists chunks. split; [done|].
    eapply Forall_impl; [by apply (tiles_request_size _ _ _ Ht)|].
    intros c. unfold Compressed.MAX_CHUNK_SIZE. simpl. lia.
Qed.
